(** * Arena scrapers: the bulk extractor and the image scraper

    A shallow embedding of [respectful_bulk_extractor.py] (class
    [RespectfulBulkExtractor]) and of the download / status / cleanup
    methods of [image.py] (class [TokenImageScraper]), with the
    properties their specification states about them.

    Conventions of the embedding.
    - The table [token_deployments] is a list of rows; nothing in the
      sources makes [token_address] unique, so an UPDATE rewrites every
      row its WHERE clause selects.
    - A Python [Dict[str, str]] is a [gmap string string].
    - Everything outside the process (HTTP responses, database faults,
      file-system faults, the clocks) is scripted in the [world]: each
      call consumes the next entry of its script.
    - Exceptions are explicit: a computation returns [Ok v] or
      [Raise e]. *)

From Stdlib Require Import ZArith Lia.
From stdpp Require Import gmap strings list fin_maps.

Local Open Scope string_scope.
Local Open Scope Z_scope.

(** ** Python values and the table *)

(** A field of an upstream record, at the type the annotations of the
    extractor give it (the mapping is a [Dict[str, str]]): [None], for
    an absent or null field, or a string. The model covers the records
    whose two fields have these types; numbers, booleans, lists and
    objects in their place are outside it, and nothing below speaks
    about them. *)
Inductive pyval : Type :=
| PyNone
| PyStr (s : string).

(** Python truthiness: [None] and the empty string are falsy. *)
Definition truthy (v : pyval) : bool :=
  match v with
  | PyNone => false
  | PyStr s => negb (String.eqb s "")
  end.

(** One row of [token_deployments], with the columns the two scripts
    read or write. A nullable TEXT column is an [option string]. *)
Record row : Type := mkRow {
  token_address : string;
  image_url : option string;
  arena_image_url : option string;
  arena_image_scraped_at : option string;
  arena_image_file_path : option string;
  arena_image_scrape_status : option string
}.

Abbreviation table := (list row).

#[global] Instance row_eq_dec : EqDecision row.
Proof. solve_decision. Defined.

(** [UPDATE t SET ... WHERE ...]: every selected row is rewritten; the
    statement's row count is the number of selected rows. *)
Definition sql_update (set : row -> row) (where_ : row -> bool) (t : table)
  : table * nat :=
  ((fun r => if where_ r then set r else r) <$> t,
   length (filter (fun r => where_ r = true) t)).

(** [image_url IS NULL OR image_url = ''] *)
Definition image_url_blank (r : row) : bool :=
  match image_url r with
  | None => true
  | Some s => String.eqb s ""
  end.

Definition set_image_url (u : string) (r : row) : row :=
  mkRow (token_address r) (Some u) (arena_image_url r)
        (arena_image_scraped_at r) (arena_image_file_path r)
        (arena_image_scrape_status r).

(** The statement of [update_database_batch]:
    [UPDATE token_deployments SET image_url = %s
     WHERE token_address = %s AND (image_url IS NULL OR image_url = '')]. *)
Definition fill_where (addr : string) (r : row) : bool :=
  String.eqb (token_address r) addr && image_url_blank r.

Definition fill_image_url (img_url addr : string) (t : table) : table * nat :=
  sql_update (set_image_url img_url) (fill_where addr) t.

(** One element of the JSON array the upstream API returns: an object
    (a Python dict) or something else ([isinstance(token, dict)] is
    false). *)
Inductive token : Type :=
| TokenDict (d : gmap string pyval)
| TokenOther.

(** [d.get(key)]: [None] when the key is missing. *)
Definition dict_get (d : gmap string pyval) (key : string) : pyval :=
  default PyNone (d !! key).

(** ** The world outside the process *)

(** What [psycopg2] may do to one call of [update_database_batch]. A
    fault leaves the connection usable: the [rollback] and the [close]
    that follow it succeed. *)
Inductive db_fault : Type :=
| NoFault
| ConnectFails                 (* psycopg2.connect raises *)
| CursorFails                  (* conn.cursor() raises *)
| StatementFails (k : nat)     (* the k-th statement of executemany raises *)
| CommitFails.                 (* conn.commit() raises *)

(** The [Retry-After] header of a 429 response. *)
Inductive retry_after_header : Type :=
| RetryAbsent
| RetrySeconds (n : Z)
| RetryMalformed.              (* int(...) raises ValueError *)

(** What one [session.get] followed by [raise_for_status] and [json()]
    may produce. *)
Inductive http_outcome : Type :=
| HttpRateLimited (h : retry_after_header)   (* status 429 *)
| HttpJsonList (data : list token)           (* success, the body is a list *)
| HttpJsonOther                              (* success, the body is not a list *)
| HttpFailed.                                (* a RequestException *)

Inductive exn : Type :=
| ValueError
| OverflowError
| OSError
| NameError.

Inductive result (A : Type) : Type :=
| Ok (a : A)
| Raise (e : exn).
Arguments Ok {A} a.
Arguments Raise {A} e.

Inductive level : Type := Info | Warning | Error.

(** The logger calls of the extractor, without their formatting. *)
Inductive message : Type :=
| MsgDbConnectionFailed
| MsgRequest (attempt : nat) (offset limit : Z)
| MsgRateLimited (retry_after : Z)
| MsgFetched (n : nat) (attempt : nat)
| MsgUnexpectedFormat
| MsgRequestFailed (attempt : nat)
| MsgBackingOff (delay : Z)
| MsgAllRetriesFailed (offset : Z)
| MsgProgressSaved (n : nat) (offset : Z)
| MsgUpdated (n : nat)
| MsgDbUpdateFailed
| MsgEstimatedTotal (offset : Z)
| MsgCouldNotEstimate
| MsgProgress (offset : Z) (n : nat)
| MsgEmptyResponse (consecutive_empty : nat)
| MsgReachedEnd
| MsgFoundMappings (n : nat)
| MsgSafetyLimit.

Inductive event : Type :=
| EvGet (limit offset : Z)          (* session.get(url, params) *)
| EvSleep (seconds : Z)             (* time.sleep of an exact duration *)
| EvRespectfulDelay (base : Z)      (* time.sleep of a jittered duration *)
| EvLog (lvl : level) (msg : message).

(** A progress artifact written by [save_progress]. *)
Record checkpoint : Type := mkCheckpoint {
  cp_offset : Z;
  cp_total_mappings : nat;
  cp_timestamp : Z;
  cp_mappings : gmap string string
}.

(** A file [extraction_progress_<ts>.json] on disk: [json.dump] wrote
    the whole checkpoint, or the file was created (or truncated) by
    [open(..., 'w')] and the dump did not finish. *)
Inductive progress_file : Type :=
| Complete (cp : checkpoint)
| Incomplete.

(** What the file system may do to one [with open(...) as f:
    json.dump(...)]. *)
Inductive fs_fault : Type :=
| NoFsFault
| OpenFails                    (* open raises: no file is created or truncated *)
| DumpFails.                   (* json.dump raises after open succeeded *)

Record world : Type := mkWorld {
  db : table;                         (* committed state of the table *)
  db_faults : list db_fault;          (* one entry per update_database_batch *)
  net : list http_outcome;            (* one entry per session.get *)
  fs_faults : list fs_fault;          (* one entry per file the script writes *)
  clock : list Z;                     (* successive readings of int(time.time()) *)
  files : gmap Z progress_file;       (* extraction_progress_<ts>.json *)
  trace : list event;                 (* most recent event first *)
  total_fetched : nat;                (* self.total_fetched *)
  total_mappings : nat;               (* self.total_mappings *)
  uptime : Z                          (* the monotonic clock, in nanoseconds *)
}.

Definition set_db (t : table) (w : world) : world :=
  mkWorld t (db_faults w) (net w) (fs_faults w) (clock w) (files w)
          (trace w) (total_fetched w) (total_mappings w) (uptime w).
Definition set_db_faults (l : list db_fault) (w : world) : world :=
  mkWorld (db w) l (net w) (fs_faults w) (clock w) (files w)
          (trace w) (total_fetched w) (total_mappings w) (uptime w).
Definition set_net (l : list http_outcome) (w : world) : world :=
  mkWorld (db w) (db_faults w) l (fs_faults w) (clock w) (files w)
          (trace w) (total_fetched w) (total_mappings w) (uptime w).
Definition set_fs_faults (l : list fs_fault) (w : world) : world :=
  mkWorld (db w) (db_faults w) (net w) l (clock w) (files w)
          (trace w) (total_fetched w) (total_mappings w) (uptime w).
Definition set_clock (l : list Z) (w : world) : world :=
  mkWorld (db w) (db_faults w) (net w) (fs_faults w) l (files w)
          (trace w) (total_fetched w) (total_mappings w) (uptime w).
Definition set_files (fs : gmap Z progress_file) (w : world) : world :=
  mkWorld (db w) (db_faults w) (net w) (fs_faults w) (clock w) fs
          (trace w) (total_fetched w) (total_mappings w) (uptime w).
Definition emit (e : event) (w : world) : world :=
  mkWorld (db w) (db_faults w) (net w) (fs_faults w) (clock w) (files w)
          (e :: trace w) (total_fetched w) (total_mappings w) (uptime w).
Definition set_total_fetched (n : nat) (w : world) : world :=
  mkWorld (db w) (db_faults w) (net w) (fs_faults w) (clock w) (files w)
          (trace w) n (total_mappings w) (uptime w).
Definition set_total_mappings (n : nat) (w : world) : world :=
  mkWorld (db w) (db_faults w) (net w) (fs_faults w) (clock w) (files w)
          (trace w) (total_fetched w) n (uptime w).

Definition log (lvl : level) (msg : message) : world -> world :=
  emit (EvLog lvl msg).

(** The fault the next database call meets; an exhausted script means
    no fault. *)
Definition next_db_fault (w : world) : db_fault :=
  match db_faults w with
  | [] => NoFault
  | f :: _ => f
  end.

Definition pop_db_fault (w : world) : world :=
  set_db_faults (tail (db_faults w)) w.

(** ** The batch upsert writer *)

Module Extractor.

(** Settings of [__init__]. The delays are whole seconds: 2.0 and
    2.0 ** attempt are exact. *)
Definition base_delay : Z := 2.
Definition batch_size : Z := 50.
Definition max_retries : nat := 3.
Definition backoff_factor : Z := 2.

(** [cursor.executemany(sql, update_data)] inside the open transaction:
    the statements run in order on the working copy of the table; the
    cursor's [rowcount] accumulates the row counts of the statements
    (psycopg2 adds them up). [None] when a statement raises. *)
Fixpoint executemany (update_data : list (string * string))
    (fail_at : option nat) (t : table) (rowcount : nat)
  : option (table * nat) :=
  match update_data with
  | [] => Some (t, rowcount)
  | (img_url, addr) :: rest =>
      match fail_at with
      | Some O => None
      | _ =>
          let '(t', n) := fill_image_url img_url addr t in
          executemany rest (Nat.pred <$> fail_at) t' (rowcount + n)%nat
      end
  end.

(** [[(img_url, addr) for addr, img_url in mappings.items()]]. A
    [gmap] keeps no insertion order: the statements come in the order
    of the map. The addresses of a batch are distinct, so the outcome
    of a batch that runs to its end is the same in every order (lemma
    [executemany_order] below), and a statement that raises aborts the
    batch wherever it stands (lemma [executemany_fault]). *)
Definition update_data_of (mappings : gmap string string)
  : list (string * string) :=
  (fun p => (p.2, p.1)) <$> map_to_list mappings.

(** The [try] block of [update_database_batch]. The first component is
    the table the commit published, or [None] when an exception left the
    block; the second is [updated_count] at that point. *)
Definition try_update (f : db_fault) (mappings : gmap string string)
    (t : table) : option table * nat :=
  match f with
  | CursorFails => (None, O)
  | _ =>
      let fail_at := match f with StatementFails k => Some k | _ => None end in
      match executemany (update_data_of mappings) fail_at t O with
      | None => (None, O)
      | Some (t', rowcount) =>
          match f with
          | CommitFails => (None, rowcount)
          | _ => (Some t', rowcount)
          end
      end
  end.

(** [update_database_batch(mappings)]: the returned count and the world
    after the call. A rollback leaves the committed table as it was.
    The faults of the script are those of [connect], [cursor],
    [executemany] and [commit]; [conn.rollback()] and [conn.close()]
    themselves, which the method does not guard, are taken to
    succeed. *)
Definition update_database_batch (mappings : gmap string string) (w : world)
  : nat * world :=
  if Nat.eqb (size mappings) 0 then (O, w)
  else
    let f := next_db_fault w in
    let w := pop_db_fault w in
    match f with
    | ConnectFails => (O, log Error MsgDbConnectionFailed w)
    | _ =>
        match try_update f mappings (db w) with
        | (Some t', updated_count) =>
            (updated_count, log Info (MsgUpdated updated_count) (set_db t' w))
        | (None, updated_count) =>
            (updated_count, log Error MsgDbUpdateFailed w)
        end
    end.

(** ** The mapping extractor *)

(** [needle in s] for two strings. *)
Fixpoint contains (needle s : string) : bool :=
  String.prefix needle s ||
  match s with
  | EmptyString => false
  | String _ s' => contains needle s'
  end.

Definition allowed_host : string := "static.starsarena.com".

(** [allowed_host in v], reached only for a truthy [v]. *)
Definition host_in (v : pyval) : bool :=
  match v with
  | PyNone => false
  | PyStr s => contains allowed_host s
  end.

(** One turn of the [for token in tokens] loop of
    [extract_image_mappings]; [acc] is [mappings] and the world, whose
    counter [total_mappings] the loop increments. *)
Definition extract_token (acc : gmap string string * world) (tok : token)
  : gmap string string * world :=
  match tok with
  | TokenOther => acc
  | TokenDict d =>
      let token_address := dict_get d "token_contract_address" in
      if negb (truthy token_address) then acc
      else
        let image_url := dict_get d "photo_url" in
        if negb (truthy image_url) || negb (host_in image_url) then acc
        else
          match token_address, image_url with
          | PyStr addr, PyStr url =>
              (<[addr := url]> acc.1,
               set_total_mappings (S (total_mappings acc.2)) acc.2)
          | _, _ => acc
          end
  end.

Definition extract_image_mappings (tokens : list token) (w : world)
  : gmap string string * world :=
  fold_left extract_token tokens (∅, w).

(** ** The paginated fetcher *)

(** [self.session.get(...)]: the next scripted outcome; an exhausted
    script is a connection failure. *)
Definition session_get (limit offset : Z) (w : world) : http_outcome * world :=
  (match net w with [] => HttpFailed | r :: _ => r end,
   emit (EvGet limit offset) (set_net (tail (net w)) w)).

(** The largest number of nanoseconds CPython's time type holds
    (a signed 64 bit integer). *)
Definition int64_max : Z := 9223372036854775807.

(** The reading of the monotonic clock [time.sleep] adds the duration
    to, in nanoseconds. The clock counts from the start of the machine:
    the model keeps it between 0 and 2 ^ 62 (146 years), and takes one
    reading for a run. *)
Definition monotonic_ns (w : world) : Z :=
  Z.max 0 (Z.min (uptime w) (2 ^ 62)).

(** How [time.sleep(seconds)] fails for an integer duration (CPython
    3.11 on Linux): ValueError on a negative duration; OverflowError
    when the duration in nanoseconds does not fit the time type, that
    is above 9223372036 seconds; OSError (EINVAL of [clock_nanosleep])
    when the deadline, the monotonic clock plus the duration, reaches
    the largest value of the time type. *)
Definition sleep_error (seconds : Z) (w : world) : option exn :=
  if seconds <? 0 then Some ValueError
  else if int64_max <? seconds * 10 ^ 9 then Some OverflowError
  else if int64_max <=? monotonic_ns w + seconds * 10 ^ 9 then Some OSError
  else None.

(** [time.sleep(seconds)] *)
Definition time_sleep (seconds : Z) (w : world) : result unit * world :=
  match sleep_error seconds w with
  | Some e => (Raise e, w)
  | None => (Ok tt, emit (EvSleep seconds) w)
  end.

(** [respectful_delay(base_delay)]: the jittered duration is not
    modelled, the event records its base. The duration is at most 2.4
    seconds, which [time.sleep] accepts. *)
Definition respectful_delay (base : option Z) (w : world) : world :=
  emit (EvRespectfulDelay (default base_delay base)) w.

(** The [for attempt in range(self.max_retries)] loop of
    [fetch_tokens_with_retry], entered at [attempt] with [remaining]
    turns left. *)
Fixpoint fetch_attempts (remaining attempt : nat) (limit offset : Z)
    (w : world) : result (list token) * world :=
  match remaining with
  | O => (Ok [], w)
  | S remaining' =>
      let w := log Info (MsgRequest (attempt + 1) offset limit) w in
      let '(response, w) := session_get limit offset w in
      match response with
      | HttpRateLimited h =>
          match h with
          | RetryMalformed => (Raise ValueError, w)
          | _ =>
              let retry_after :=
                match h with RetrySeconds n => n | _ => 60 end in
              let w := log Warning (MsgRateLimited retry_after) w in
              match time_sleep retry_after w with
              | (Raise e, w) => (Raise e, w)
              | (Ok _, w) =>
                  fetch_attempts remaining' (S attempt) limit offset w
              end
          end
      | HttpJsonList data =>
          (Ok data, log Info (MsgFetched (length data) (attempt + 1)) w)
      | HttpJsonOther => (Ok [], log Warning MsgUnexpectedFormat w)
      | HttpFailed =>
          let w := log Warning (MsgRequestFailed (attempt + 1)) w in
          if (attempt <? max_retries - 1)%nat then
            let backoff_delay := base_delay * backoff_factor ^ Z.of_nat attempt in
            let w := log Info (MsgBackingOff backoff_delay) w in
            match time_sleep backoff_delay w with
            | (Raise e, w) => (Raise e, w)
            | (Ok _, w) =>
                fetch_attempts remaining' (S attempt) limit offset w
            end
          else (Ok [], log Error (MsgAllRetriesFailed offset) w)
      end
  end.

Definition fetch_tokens_with_retry (limit offset : Z) (w : world)
  : result (list token) * world :=
  fetch_attempts max_retries 0 limit offset w.

(** ** The progress checkpoint *)

(** [int(time.time())] *)
Definition read_clock (w : world) : Z * world :=
  (match clock w with [] => 0 | t :: _ => t end, set_clock (tail (clock w)) w).

(** The fault the next write of a file meets; an exhausted script
    means no fault. *)
Definition next_fs_fault (w : world) : fs_fault :=
  match fs_faults w with [] => NoFsFault | f :: _ => f end.

(** [save_progress(all_mappings, offset)]. Nothing in it catches the
    exception of a failed [open] or [json.dump]. When [open] fails no
    file is touched; when [json.dump] fails the file that [open] has
    created or truncated stays, incomplete. *)
Definition save_progress (all_mappings : gmap string string) (offset : Z)
    (w : world) : result unit * world :=
  let '(timestamp, w) := read_clock w in
  let progress_data :=
    mkCheckpoint offset (size all_mappings) timestamp all_mappings in
  let '(name, w) := read_clock w in
  let fault := next_fs_fault w in
  let w := set_fs_faults (tail (fs_faults w)) w in
  match fault with
  | OpenFails => (Raise OSError, w)
  | DumpFails =>
      (Raise OSError, set_files (<[name := Incomplete]> (files w)) w)
  | NoFsFault =>
      let w := set_files (<[name := Complete progress_data]> (files w)) w in
      (Ok tt, log Info (MsgProgressSaved (size all_mappings) offset) w)
  end.

(** ** The extraction loop *)

Fixpoint estimate_offsets (test_offsets : list Z) (w : world)
  : result Z * world :=
  match test_offsets with
  | [] => (Ok 50000, w)
  | offset :: rest =>
      match fetch_tokens_with_retry 1 offset w with
      | (Raise e, w) => (Raise e, w)
      | (Ok [], w) => (Ok offset, log Info (MsgEstimatedTotal offset) w)
      | (Ok (_ :: _), w) => estimate_offsets rest (respectful_delay (Some 1) w)
      end
  end.

(** [estimate_total_available()]: its [except Exception] turns any
    exception into the fallback estimate. *)
Definition estimate_total_available (w : world) : Z * world :=
  match estimate_offsets [0; 1000; 5000; 10000; 25000; 50000] w with
  | (Ok n, w) => (n, w)
  | (Raise _, w) => (10000, log Warning MsgCouldNotEstimate w)
  end.

(** The local variables of [bulk_extract_all_tokens]. [batch_mappings]
    is unbound until the first non-empty page. [fetched] is a ghost
    variable: the pages the loop has fetched, most recent first. *)
Record locals : Type := mkLocals {
  all_mappings : gmap string string;
  offset : Z;
  consecutive_empty : nat;
  batch_mappings : option (gmap string string);
  fetched : list (list token)
}.

Definition max_consecutive_empty : nat := 3.

Inductive control : Type := Continue | Break.

(** The tail of the loop body, from [# Save progress every 1000 tokens]
    on. *)
Definition after_page (l : locals) (w : world)
  : result (control * locals) * world :=
  let saved :=
    if offset l mod 1000 =? 0 then save_progress (all_mappings l) (offset l) w
    else (Ok tt, w) in
  match saved with
  | (Raise e, w) => (Raise e, w)
  | (Ok _, w) =>
      let updated :=
        if Nat.eqb (size (all_mappings l) mod 500) 0
           && (0 <? size (all_mappings l))%nat
        then match batch_mappings l with
             | None => (Raise NameError, w)
             | Some b => (Ok tt, (update_database_batch b w).2)
             end
        else (Ok tt, w) in
      match updated with
      | (Raise e, w) => (Raise e, w)
      | (Ok _, w) =>
          let l := mkLocals (all_mappings l) (offset l + batch_size)
                     (consecutive_empty l) (batch_mappings l) (fetched l) in
          let w := respectful_delay None w in
          if 100000 <? offset l
          then (Ok (Break, l), log Warning MsgSafetyLimit w)
          else (Ok (Continue, l), w)
      end
  end.

(** One turn of the [while] loop. The [print] calls are left out. *)
Definition loop_body (l : locals) (w : world)
  : result (control * locals) * world :=
  let w := log Info (MsgProgress (offset l) (size (all_mappings l))) w in
  match fetch_tokens_with_retry batch_size (offset l) w with
  | (Raise e, w) => (Raise e, w)
  | (Ok tokens, w) =>
      match tokens with
      | [] =>
          let l := mkLocals (all_mappings l) (offset l)
                     (S (consecutive_empty l)) (batch_mappings l)
                     (tokens :: fetched l) in
          let w := log Warning (MsgEmptyResponse (consecutive_empty l)) w in
          if (max_consecutive_empty <=? consecutive_empty l)%nat
          then (Ok (Break, l), log Info MsgReachedEnd w)
          else after_page l w
      | _ :: _ =>
          let w := set_total_fetched (total_fetched w + length tokens) w in
          let '(batch, w) := extract_image_mappings tokens w in
          let l := mkLocals (batch ∪ all_mappings l) (offset l) O
                     (Some batch) (tokens :: fetched l) in
          let w := if Nat.eqb (size batch) 0 then w
                   else log Info (MsgFoundMappings (size batch)) w in
          after_page l w
      end
  end.

(** [while consecutive_empty < max_consecutive_empty: ...] *)
Fixpoint while_loop (fuel : nat) (l : locals) (w : world)
  : option (result locals * world) :=
  match fuel with
  | O => None
  | S fuel' =>
      if (consecutive_empty l <? max_consecutive_empty)%nat then
        match loop_body l w with
        | (Raise e, w) => Some (Raise e, w)
        | (Ok (Break, l), w) => Some (Ok l, w)
        | (Ok (Continue, l), w) => while_loop fuel' l w
        end
      else Some (Ok l, w)
  end.

Definition initial_locals : locals := mkLocals ∅ 0 O None [].

(** [bulk_extract_all_tokens()], with the locals at the exit of the
    loop in place of the returned [all_mappings] alone. *)
Definition bulk_extract_all_tokens (fuel : nat) (w : world)
  : option (result locals * world) :=
  let '(estimated_total, w) := estimate_total_available w in
  let w := log Info (MsgEstimatedTotal estimated_total) w in
  while_loop fuel initial_locals w.

(** ** The entry point *)

(** [input(...).lower() == 'y']: of the strings only "y" and "Y" have
    the lower case form "y". *)
Definition confirmed (answer : string) : bool :=
  String.eqb answer "y" || String.eqb answer "Y".

(** How [main] returns: the user declined; the run found no mapping;
    or the final update returned [final_updated] and the backup file
    [final_token_image_mappings.json] was written with [backup]. *)
Inductive main_outcome : Type :=
| Cancelled
| NoMappings
| Completed (final_updated : nat) (backup : gmap string string).

(** [main()], given the answer typed at the prompt. The statistics it
    prints are left out. The write of the backup file takes the next
    entry of the file-system script. *)
Definition main (answer : string) (fuel : nat) (w : world)
  : option (result main_outcome * world) :=
  if negb (confirmed answer) then Some (Ok Cancelled, w)
  else
    match bulk_extract_all_tokens fuel w with
    | None => None
    | Some (Raise e, w) => Some (Raise e, w)
    | Some (Ok l, w) =>
        if Nat.eqb (size (all_mappings l)) 0 then Some (Ok NoMappings, w)
        else
          let '(final_updated, w) :=
            update_database_batch (all_mappings l) w in
          let fault := next_fs_fault w in
          let w := set_fs_faults (tail (fs_faults w)) w in
          match fault with
          | NoFsFault =>
              Some (Ok (Completed final_updated (all_mappings l)), w)
          | _ => Some (Raise OSError, w)
          end
    end.

End Extractor.

(** ** The image scraper ([image.py]) *)

Module Scraper.

(** The scraper's database, the files on disk (path to content), the
    [images_dir] setting and the successive readings of
    [datetime.now().isoformat()], one for each call that takes one. *)
Record state : Type := mkState {
  sdb : table;
  disk : gmap string string;
  images_dir : string;
  times : list string
}.

(** The reading the next call of [datetime.now().isoformat()] returns. *)
Definition now (s : state) : string :=
  match times s with [] => "" | t :: _ => t end.

(** What the [try] block of [download_image] meets for one address:
    a response with its status, whose body has been read and, for a
    status of 200, written to the file; a timeout; a 200 response
    whose body has been read but whose file cannot be written
    ([aiofiles.open] raises and no file is touched, [partial] is
    [None]; or [f.write] raises and the file that was created or
    truncated holds [partial]); any other exception. *)
Inductive response : Type :=
| RespStatus (status : Z) (content : string)
| RespTimeout                 (* asyncio.TimeoutError *)
| RespError                   (* any other exception of the request *)
| RespWriteFails (partial : option string).

(** [self.base_url.format(address)] *)
Definition url_of (address : string) : string :=
  ("https://arena.trade/token/" +:+ address) +:+ "/opengraph-image".

(** *** Paths, as [pathlib] builds them on POSIX *)

Definition slash : Ascii.ascii := Ascii.ascii_of_nat 47%nat.

(** [s.split('/')] *)
Fixpoint split_slash (s : string) : list string :=
  match s with
  | EmptyString => [EmptyString]
  | String c s' =>
      if Ascii.eqb c slash then EmptyString :: split_slash s'
      else match split_slash s' with
           | [] => [String c EmptyString]
           | x :: xs => String c x :: xs
           end
  end.

(** The components [pathlib] keeps of a path: those that are neither
    empty nor ".". *)
Definition path_parts (s : string) : list string :=
  filter (fun x => x <> "" /\ x <> ".") (split_slash s).

Fixpoint leading_slashes (s : string) : nat :=
  match s with
  | String c s' => if Ascii.eqb c slash then S (leading_slashes s') else O
  | EmptyString => O
  end.

(** The root of a path: none for a relative path, "//" for exactly two
    leading slashes, "/" otherwise. *)
Definition path_root (s : string) : string :=
  match leading_slashes s with
  | O => ""
  | 2%nat => "//"
  | _ => "/"
  end.

(** ['/'.join(parts)] *)
Fixpoint join_slash (parts : list string) : string :=
  match parts with
  | [] => ""
  | [x] => x
  | x :: rest => x +:+ "/" +:+ join_slash rest
  end.

(** [str(path)] *)
Definition path_str (root : string) (parts : list string) : string :=
  match root, parts with
  | EmptyString, [] => "."
  | _, _ => root +:+ join_slash parts
  end.

(** [str(Path(dir) / name)]: an absolute [name] replaces [dir]. *)
Definition path_join (dir name : string) : string :=
  if String.eqb (path_root name) ""
  then path_str (path_root dir) (path_parts dir ++ path_parts name)
  else path_str (path_root name) (path_parts name).

(** [self.images_dir / f"{address}.png"], as a string. The files on
    disk are told apart by this string: what the file system itself
    identifies (a path through ".." or a symbolic link and the path it
    leads to) is not modelled. *)
Definition file_path_of (s : state) (address : string) : string :=
  path_join (images_dir s) (address +:+ ".png").

Definition set_scrape (scraped_at status : string)
    (url path : option string) (r : row) : row :=
  mkRow (token_address r) (image_url r) url (Some scraped_at) path
        (Some status).

(** [update_token_image_status(address, status, arena_image_url, file_path)]:
    [UPDATE token_deployments SET arena_image_scraped_at = ?,
     arena_image_scrape_status = ?, arena_image_url = ?,
     arena_image_file_path = ? WHERE token_address = ?], the first
    parameter being [datetime.now().isoformat()] at the call. *)
Definition update_token_image_status (address status : string)
    (arena_image_url file_path : option string) (s : state) : state :=
  mkState
    (sql_update (set_scrape (now s) status arena_image_url file_path)
                (fun r => String.eqb (token_address r) address) (sdb s)).1
    (disk s) (images_dir s) (tail (times s)).

(** [download_image(session, address)]: the returned boolean and the
    state after the call. *)
Definition download_image (address : string) (resp : response) (s : state)
  : bool * state :=
  let url := url_of address in
  let file_path := file_path_of s address in
  match resp with
  | RespStatus status content =>
      if status =? 200 then
        let s := mkState (sdb s) (<[file_path := content]> (disk s))
                         (images_dir s) (times s) in
        (true,
         update_token_image_status address "success" (Some url)
                                   (Some file_path) s)
      else
        (false, update_token_image_status address "failed" None None s)
  | RespTimeout =>
      (false, update_token_image_status address "timeout" None None s)
  | RespError =>
      (false, update_token_image_status address "error" None None s)
  | RespWriteFails partial =>
      let s := match partial with
               | None => s
               | Some p => mkState (sdb s) (<[file_path := p]> (disk s))
                                   (images_dir s) (times s)
               end in
      (false, update_token_image_status address "error" None None s)
  end.

(** The status [download_image] records for a response. *)
Definition recorded_status (resp : response) : string :=
  match resp with
  | RespStatus status _ => if status =? 200 then "success" else "failed"
  | RespTimeout => "timeout"
  | RespError => "error"
  | RespWriteFails _ => "error"
  end.

(** [arena_image_scrape_status != 'success'], false on NULL. *)
Definition status_not_success (r : row) : bool :=
  match arena_image_scrape_status r with
  | None => false
  | Some st => negb (String.eqb st "success")
  end.

(** The SELECT of [cleanup_failed_images]:
    [WHERE arena_image_scrape_status != 'success'
     AND arena_image_file_path IS NOT NULL]. *)
Definition failed_with_path (r : row) : bool :=
  status_not_success r &&
  match arena_image_file_path r with None => false | Some _ => true end.

Definition clear_file_path (r : row) : row :=
  mkRow (token_address r) (image_url r) (arena_image_url r)
        (arena_image_scraped_at r) None (arena_image_scrape_status r).

(** The [for (token_address,) in failed_tokens] loop: unlink the file
    of each selected address when it exists. *)
Fixpoint unlink_all (dir : string) (failed_tokens : list string)
    (d : gmap string string) (cleaned_count : nat)
  : gmap string string * nat :=
  match failed_tokens with
  | [] => (d, cleaned_count)
  | token_address :: rest =>
      let file_path := path_join dir (token_address +:+ ".png") in
      match d !! file_path with
      | Some _ => unlink_all dir rest (delete file_path d) (S cleaned_count)
      | None => unlink_all dir rest d cleaned_count
      end
  end.

(** [cleanup_failed_images()]: the number of files removed (which the
    method logs) and the state after it. *)
Definition cleanup_failed_images (s : state) : nat * state :=
  let failed_tokens :=
    token_address <$> filter (fun r => failed_with_path r = true) (sdb s) in
  let '(d, cleaned_count) := unlink_all (images_dir s) failed_tokens (disk s) O in
  (cleaned_count,
   mkState (sql_update clear_file_path status_not_success (sdb s)).1
           d (images_dir s) (times s)).

(** *** Selecting the tokens to scrape *)

(** SQL's three-valued logic: [None] is NULL. *)
Definition sql_or (a b : option bool) : option bool :=
  match a, b with
  | Some true, _ | _, Some true => Some true
  | Some false, Some false => Some false
  | _, _ => None
  end.

Definition sql_and (a b : option bool) : option bool :=
  match a, b with
  | Some false, _ | _, Some false => Some false
  | Some true, Some true => Some true
  | _, _ => None
  end.

Definition sql_not (a : option bool) : option bool := negb <$> a.

(** [v IS NULL] *)
Definition sql_is_null (v : option string) : option bool :=
  Some (match v with None => true | Some _ => false end).

(** [v = 'text'] and [v < 'text'] on TEXT values, byte by byte. *)
Definition sql_eq_text (v : option string) (text : string) : option bool :=
  (fun x => String.eqb x text) <$> v.

Definition sql_lt_text (v : option string) (text : string) : option bool :=
  (fun x => String.ltb x text) <$> v.

(** The case folding of SQLite's LIKE: ASCII letters only. *)
Definition lower_ascii (c : Ascii.ascii) : Ascii.ascii :=
  let n := Ascii.N_of_ascii c in
  if ((65 <=? n) && (n <=? 90))%N then Ascii.ascii_of_N (n + 32) else c.

Fixpoint lower (s : string) : string :=
  match s with
  | EmptyString => EmptyString
  | String c s' => String (lower_ascii c) (lower s')
  end.

(** [v LIKE '%starsarena%'] *)
Definition sql_like_starsarena (v : option string) : option bool :=
  (fun x => Extractor.contains "starsarena" (lower x)) <$> v.

(** [(image_url IS NULL OR image_url NOT LIKE '%starsarena%')] *)
Definition not_starsarena (r : row) : option bool :=
  sql_or (sql_is_null (image_url r))
         (sql_not (sql_like_starsarena (image_url r))).

(** The WHERE clause [get_tokens_to_scrape] builds. [week_ago] is the
    value of [datetime('now', '-7 days')]. In the default query the
    text appended for [skip_starsarena] follows the last OR: AND binds
    tighter, so it qualifies [arena_image_url IS NULL] alone. *)
Definition scrape_where (force_refresh skip_starsarena : bool)
    (week_ago : string) (r : row) : option bool :=
  if force_refresh then
    if skip_starsarena then not_starsarena r else Some true
  else
    sql_or
      (sql_or
         (sql_or (sql_is_null (arena_image_scraped_at r))
                 (sql_eq_text (arena_image_scrape_status r) "failed"))
         (sql_lt_text (arena_image_scraped_at r) week_ago))
      (if skip_starsarena
       then sql_and (sql_is_null (arena_image_url r)) (not_starsarena r)
       else sql_is_null (arena_image_url r)).

(** [get_tokens_to_scrape(limit, force_refresh, skip_starsarena)]. The
    rows come in the order of the table. [LIMIT] is appended only for a
    truthy [limit]; SQLite reads a negative LIMIT as no limit. *)
Definition get_tokens_to_scrape (limit : option Z)
    (force_refresh skip_starsarena : bool) (week_ago : string) (s : state)
  : list string :=
  let tokens :=
    token_address
      <$> filter (fun r => scrape_where force_refresh skip_starsarena
                             week_ago r = Some true) (sdb s) in
  match limit with
  | None => tokens
  | Some n => if n <=? 0 then tokens else take (Z.to_nat n) tokens
  end.

(** *** The batches of [scrape_all_images] *)

(** [range(i, stop, step)] for a positive step. *)
Fixpoint range_from (fuel i stop step : nat) : list nat :=
  match fuel with
  | O => []
  | S fuel' =>
      if (i <? stop)%nat then i :: range_from fuel' (i + step) stop step
      else []
  end.

(** [(len(tokens) + batch_size - 1) // batch_size] *)
Definition total_batches (batch_size : nat) (tokens : list string) : nat :=
  ((length tokens + batch_size - 1) / batch_size)%nat.

(** The loop of [scrape_all_images] without the network: for each [i]
    of [range(0, len(tokens), batch_size)] the batch
    [tokens[i:i + batch_size]] and whether the loop sleeps after it
    ([i + batch_size < len(tokens)]). No tokens: the method returns at
    once. A [batch_size] of 0 is an error (the division of
    [total_batches]): [None]. *)
Definition batch_schedule (batch_size : nat) (tokens : list string)
  : option (list (list string * bool)) :=
  match tokens with
  | [] => Some []
  | _ :: _ =>
      if Nat.eqb batch_size 0 then None
      else
        Some ((fun i => (take batch_size (drop i tokens),
                         (i + batch_size <? length tokens)%nat))
                <$> range_from (length tokens) 0 (length tokens) batch_size)
  end.

End Scraper.

Import Extractor.

(** ** Notions used by the statements *)

(** What a whole batch does to one row: a blank [image_url] is filled
    with the batch's value for the row's address, if it has one. *)
Definition fill_row (m : gmap string string) (r : row) : row :=
  if image_url_blank r then
    match m !! token_address r with
    | Some u => set_image_url u r
    | None => r
    end
  else r.

(** The rows some statement of the batch selects. *)
Definition selected (m : gmap string string) (r : row) : bool :=
  image_url_blank r && bool_decide (is_Some (m !! token_address r)).

(** The number of positions at which two states of the table differ. *)
Definition rows_changed (t t' : table) : nat :=
  length (filter (fun p : row * row => p.1 <> p.2) (zip t t')).

(** One row followed through the statements of a batch: its final value
    and the number of statements that selected it. *)
Fixpoint row_run (stmts : list (string * string)) (r : row) : row * nat :=
  match stmts with
  | [] => (r, O)
  | (img_url, addr) :: rest =>
      if fill_where addr r
      then let '(r', n) := row_run rest (set_image_url img_url r) in (r', S n)
      else row_run rest r
  end.

(** The entry a token contributes to the mapping: it must be a dict
    with a non-empty address and a non-empty photo URL on the allowed
    host. *)
Definition entry_of (tok : token) : option (string * string) :=
  match tok with
  | TokenOther => None
  | TokenDict d =>
      match dict_get d "token_contract_address", dict_get d "photo_url" with
      | PyStr addr, PyStr url =>
          if negb (String.eqb addr "") && negb (String.eqb url "")
             && contains allowed_host url
          then Some (addr, url)
          else None
      | _, _ => None
      end
  end.

Definition accepted (tok : token) : bool :=
  match entry_of tok with Some _ => true | None => false end.

(** The mapping as a function of the tokens alone: the entries in
    order, a later one replacing an earlier one for the same address. *)
Definition mapping_of (tokens : list token) : gmap string string :=
  fold_left (fun m tok =>
               match entry_of tok with
               | Some (addr, url) => <[addr := url]> m
               | None => m
               end) tokens ∅.

(** The number of [session.get] calls in a trace. *)
Definition is_get (e : event) : bool :=
  match e with
  | EvGet _ _ => true
  | _ => false
  end.

Definition requests (tr : list event) : nat :=
  length (filter (fun e => is_get e = true) tr).

(** The seconds a [Retry-After] header asks for; 60 without a header. *)
Definition retry_seconds (h : retry_after_header) : option Z :=
  match h with
  | RetryAbsent => Some 60
  | RetrySeconds n => Some n
  | RetryMalformed => None
  end.

Definition is_error_log (e : event) : bool :=
  match e with
  | EvLog Error _ => true
  | _ => false
  end.


Definition page_empty (page : list token) : bool :=
  match page with [] => true | _ :: _ => false end.

(** The number of empty pages at the recent end of a history of
    fetched pages (most recent first). *)
Fixpoint trailing_empty (pages : list (list token)) : nat :=
  match pages with
  | [] => O
  | page :: older => if page_empty page then S (trailing_empty older) else O
  end.

(** Whether a history contains, anywhere, three empty pages in a row. *)
Fixpoint has_three_empty (pages : list (list token)) : bool :=
  match pages with
  | [] => false
  | _ :: older => (3 <=? trailing_empty pages)%nat || has_three_empty older
  end.

(** The loop left by [break] on the third consecutive empty page: that
    page is the first to complete a run of three, and the offset was
    not advanced after it. *)
Definition stopped_by_empty_pages (initial_offset : Z) (l : locals) : Prop :=
  consecutive_empty l = 3%nat /\
  trailing_empty (fetched l) = 3%nat /\
  has_three_empty (tail (fetched l)) = false /\
  offset l = initial_offset + batch_size * (Z.of_nat (length (fetched l)) - 1).

(** The loop left by [break] at the safety limit: no run of three empty
    pages occurred, and the offset was advanced after every page. *)
Definition stopped_by_safety_limit (initial_offset : Z) (l : locals) : Prop :=
  100000 < offset l /\
  has_three_empty (fetched l) = false /\
  offset l = initial_offset + batch_size * Z.of_nat (length (fetched l)).

Definition token_of (addr url : string) : token :=
  TokenDict (<["token_contract_address" := PyStr addr]>
               (<["photo_url" := PyStr url]> ∅)).

(** A small world for the examples: a row with a value and two blank
    rows, one NULL and one empty. *)
Definition row_kept : row := mkRow "0xA" (Some "https://old/a.png") None None None None.
Definition row_null : row := mkRow "0xB" None None None None None.
Definition row_unfilled : row := mkRow "0xC" (Some "") None None None None.
Definition example_world (t : table) (faults : list db_fault) : world :=
  mkWorld t faults [] [] [] ∅ [] O O 0.
Definition example_batch : gmap string string :=
  <["0xA" := "https://static.starsarena.com/a.png"]>
    (<["0xB" := "https://static.starsarena.com/b.png"]>
       (<["0xC" := "https://static.starsarena.com/c.png"]> ∅)).

(** The invariant of the [while] loop at its head, for a loop entered
    at [initial_offset] with an empty history. *)
Definition loop_inv (initial_offset : Z) (l : locals) : Prop :=
  offset l = initial_offset + batch_size * Z.of_nat (length (fetched l)) /\
  consecutive_empty l = trailing_empty (fetched l) /\
  (consecutive_empty l < 3)%nat /\
  has_three_empty (fetched l) = false.

(** How the loop may end: an exception, or one of the two [break]s. *)
Definition loop_exit (initial_offset : Z) (r : result locals) : Prop :=
  match r with
  | Raise _ => True
  | Ok l =>
      stopped_by_empty_pages initial_offset l \/
      stopped_by_safety_limit initial_offset l
  end.

(** The world of the checkpoint examples: the estimate sees a body that
    is not a list, the first page has one token, a second page waits;
    the dump of the first checkpoint fails. *)
Definition checkpoint_world : world :=
  mkWorld [] []
    [HttpJsonOther;
     HttpJsonList [token_of "0xA" "https://static.starsarena.com/a.png"];
     HttpJsonList [token_of "0xB" "https://static.starsarena.com/b.png"]]
    [DumpFails] [] ∅ [] O O 0.



(** A state of the scraper in which the image of 0xA was downloaded a
    week ago: the row records the success, the file is on disk. *)
Definition scraped_row : row :=
  mkRow "0xA" None
        (Some "https://arena.trade/token/0xA/opengraph-image")
        (Some "2025-01-01T03:00:00")
        (Some "token_images/0xA.png")
        (Some "success").

Definition scraped_state : Scraper.state :=
  Scraper.mkState [scraped_row] {["token_images/0xA.png" := "PNG"]}
                  "token_images" ["2025-01-08T03:00:00"].

(** One step of [mapping_of]. *)
Definition add_entry (m : gmap string string) (tok : token)
  : gmap string string :=
  match entry_of tok with
  | Some (addr, url) => <[addr := url]> m
  | None => m
  end.

(** The outcomes after which the fetcher goes on to another attempt. *)
Definition retryable (o : http_outcome) : bool :=
  match o with
  | HttpRateLimited _ | HttpFailed => true
  | HttpJsonList _ | HttpJsonOther => false
  end.

(** Two worlds that differ at most in the network script and the
    trace. *)
Definition same_outside_network (w w' : world) : Prop :=
  db w' = db w /\ db_faults w' = db_faults w /\ fs_faults w' = fs_faults w /\
  clock w' = clock w /\ files w' = files w /\
  total_fetched w' = total_fetched w /\ total_mappings w' = total_mappings w /\
  uptime w' = uptime w.

(** A world that holds only a network script. *)
Definition example_network (script : list http_outcome) : world :=
  mkWorld [] [] script [] [] ∅ [] O O 0.

(** What a run may do to a row: nothing, or fill a blank [image_url]
    with a URL on the allowed host. *)
Definition row_filled (r r' : row) : Prop :=
  r' = r \/
  (image_url_blank r = true /\
   exists u, contains allowed_host u = true /\ r' = set_image_url u r).

Definition values_on_host (b : gmap string string) : Prop :=
  forall a u, b !! a = Some u -> contains allowed_host u = true.

(** A well-formed progress file: taken at a multiple of 1000, with the
    count of the mappings it holds. *)
Definition checkpoint_ok (cp : checkpoint) : Prop :=
  cp_offset cp mod 1000 = 0 /\
  cp_total_mappings cp = size (cp_mappings cp).

(** The tokens of all the pages a loop has fetched, oldest first. *)
Definition tokens_fetched (l : locals) : list token :=
  concat (reverse (fetched l)).

(** What a run may leave in a progress file it wrote: a well-formed
    checkpoint; or nothing complete, which happens only when the write
    failed ([failed]). *)
Definition file_ok (failed : Prop) (f : progress_file) : Prop :=
  match f with
  | Complete cp => checkpoint_ok cp
  | Incomplete => failed
  end.

(** What holds of the table and of the files at any point of a run
    started in [w0]; [failed] says whether a write of a progress file
    has failed. *)
Definition world_inv (failed : Prop) (w0 w : world) : Prop :=
  Forall2 row_filled (db w0) (db w) /\
  (forall name f, files w !! name = Some f ->
     files w0 !! name = Some f \/ file_ok failed f).

(** What holds at the head of the loop of a run started in [w0]. *)
Definition run_inv (w0 : world) (l : locals) (w : world) : Prop :=
  all_mappings l = mapping_of (tokens_fetched l) /\
  (forall b, batch_mappings l = Some b ->
     exists page, page ∈ fetched l /\ b = mapping_of page) /\
  (all_mappings l <> ∅ -> is_Some (batch_mappings l)) /\
  total_fetched w = (total_fetched w0 + length (tokens_fetched l))%nat /\
  total_mappings w
  = (total_mappings w0
     + length (filter (fun tok => accepted tok = true) (tokens_fetched l)))%nat /\
  world_inv False w0 w.

(** The offsets [estimate_total_available] probes. *)
Definition test_offsets : list Z := [0; 1000; 5000; 10000; 25000; 50000].

(** A world for the examples of a whole run: the estimate sees a body
    that is not a list, then comes one page of three tokens, two of
    them for the same address, then nothing. *)
Definition run_world : world :=
  mkWorld [row_kept; row_null] []
    [HttpJsonOther;
     HttpJsonList [token_of "0xA" "https://static.starsarena.com/old.png";
                   token_of "0xA" "https://static.starsarena.com/new.png";
                   token_of "0xB" "https://static.starsarena.com/b.png"]]
    [] [] ∅ [] O O 0.

Definition run_result_value : result locals :=
  match bulk_extract_all_tokens 2001 run_world with
  | Some (r, _) => r
  | None => Raise ValueError
  end.

Definition run_world_after : world :=
  match bulk_extract_all_tokens 2001 run_world with
  | Some (_, w') => w'
  | None => run_world
  end.

(** The outcome of the run whose first checkpoint fails. *)
Definition checkpoint_result_value : result locals :=
  match bulk_extract_all_tokens 2001 checkpoint_world with
  | Some (r, _) => r
  | None => Raise ValueError
  end.

Definition checkpoint_world_after : world :=
  match bulk_extract_all_tokens 2001 checkpoint_world with
  | Some (_, w') => w'
  | None => checkpoint_world
  end.

(** A state of the scraper with a row that failed and still names a
    file, as an earlier version or another tool may have left it. *)
Definition stale_row : row :=
  mkRow "0xC" None None (Some "2025-01-01T03:00:00")
        (Some "token_images/0xC.png") (Some "failed").

Definition stale_state : Scraper.state :=
  Scraper.mkState [stale_row; scraped_row]
    (<["token_images/0xC.png" := "PARTIAL"]>
       {["token_images/0xA.png" := "PNG"]})
    "token_images" ["2025-01-08T03:00:00"].

(** A state with a row for 0xA and a row for 0xB, and two readings of
    the clock. *)
Definition two_row_state : Scraper.state :=
  Scraper.mkState [scraped_row; row_null]
    {["token_images/0xA.png" := "PNG"]}
    "token_images" ["2025-01-08T03:00:00"; "2025-01-08T03:00:01"].

(** A row that holds a StarsArena image and was never scraped. *)
Definition starsarena_row : row :=
  mkRow "0xD" (Some "https://static.starsarena.com/d.png") None None None None.





(** A state in which a failed row, with a file path, names the file of
    0xA through another address. *)
Definition alias_row : row :=
  mkRow "./0xA" None None (Some "2025-01-01T03:00:00")
        (Some "token_images/0xA.png") (Some "failed").

Definition alias_state : Scraper.state :=
  Scraper.mkState [alias_row; scraped_row]
    {["token_images/0xA.png" := "PNG"]}
    "token_images" ["2025-01-08T03:00:00"].

(** ** The batch upsert writer: lemmas *)

Section BatchUpsert.

Implicit Types (m : gmap string string) (t : table) (r : row) (w : world).

Lemma fill_where_address addr r :
  fill_where addr r = true -> token_address r = addr.
Proof.
  unfold fill_where. intros H. apply andb_true_iff in H as [H _].
  by apply String.eqb_eq.
Qed.

Lemma fill_where_blank addr r :
  fill_where addr r = true -> image_url_blank r = true.
Proof. unfold fill_where. intros H. by apply andb_true_iff in H as [_ H]. Qed.

Lemma fill_where_intro r :
  image_url_blank r = true -> fill_where (token_address r) r = true.
Proof. unfold fill_where. intros ->. by rewrite String.eqb_refl. Qed.

Lemma row_run_nonblank stmts r :
  image_url_blank r = false -> row_run stmts r = (r, O).
Proof.
  intros Hb. induction stmts as [|[u a] rest IH]; [done|].
  simpl. destruct (fill_where a r) eqn:E; [|done].
  apply fill_where_blank in E. congruence.
Qed.

Lemma row_run_absent stmts r :
  token_address r ∉ stmts.*2 -> row_run stmts r = (r, O).
Proof.
  induction stmts as [|[u a] rest IH]; [done|].
  simpl. intros Hn. apply not_elem_of_cons in Hn as [Hne Hn].
  destruct (fill_where a r) eqn:E; [|by apply IH].
  apply fill_where_address in E. congruence.
Qed.

Lemma row_run_present stmts r u :
  NoDup stmts.*2 -> (u, token_address r) ∈ stmts ->
  image_url_blank r = true ->
  row_run stmts r = (set_image_url u r, 1%nat).
Proof.
  induction stmts as [|[u' a'] rest IH]; intros Hnd Hin Hb.
  - by apply elem_of_nil in Hin.
  - simpl in *. apply NoDup_cons in Hnd as [Hfresh Hnd].
    destruct (decide (a' = token_address r)) as [->|Hne].
    + rewrite (fill_where_intro r Hb).
      assert (u' = u) as ->.
      { apply elem_of_cons in Hin as [Heq|Hin]; [congruence|].
        exfalso. apply Hfresh. apply list_elem_of_fmap. by exists (u, token_address r). }
      by rewrite (row_run_absent rest (set_image_url u r)).
    + destruct (fill_where a' r) eqn:E.
      { apply fill_where_address in E. congruence. }
      apply IH; [done| |done].
      apply elem_of_cons in Hin as [Heq|Hin]; [congruence|done].
Qed.

Lemma update_data_of_elem m u a :
  (u, a) ∈ update_data_of m <-> m !! a = Some u.
Proof.
  unfold update_data_of. rewrite list_elem_of_fmap. split.
  - intros [[a' u'] [Heq Hin]]. simpl in Heq. inversion Heq; subst.
    by apply elem_of_map_to_list in Hin.
  - intros H. exists (a, u). split; [done|]. by apply elem_of_map_to_list.
Qed.

Lemma update_data_of_addresses m :
  (update_data_of m).*2 = (map_to_list m).*1.
Proof.
  unfold update_data_of. rewrite <- list_fmap_compose.
  by apply list_fmap_ext.
Qed.

Lemma update_data_of_NoDup m : NoDup (update_data_of m).*2.
Proof. rewrite update_data_of_addresses. apply NoDup_fst_map_to_list. Qed.

Lemma update_data_of_length m : length (update_data_of m) = size m.
Proof. unfold update_data_of. by rewrite length_fmap, length_map_to_list. Qed.

(** A row followed through a batch ends as [fill_row] says, and is
    selected at most once. *)
Lemma row_run_batch m r :
  row_run (update_data_of m) r
  = (fill_row m r, if selected m r then 1%nat else O).
Proof.
  unfold fill_row, selected.
  destruct (image_url_blank r) eqn:Hb; simpl.
  - destruct (m !! token_address r) as [u|] eqn:Hm.
    + rewrite bool_decide_eq_true_2 by eauto.
      apply row_run_present; [apply update_data_of_NoDup | | done].
      by apply update_data_of_elem.
    + rewrite bool_decide_eq_false_2 by (intros [? ?]; congruence).
      apply row_run_absent. rewrite update_data_of_addresses.
      intros Hin. apply list_elem_of_fmap in Hin as [[a u] [Heq Hin]].
      simpl in Heq; subst. apply elem_of_map_to_list in Hin. congruence.
  - by apply row_run_nonblank.
Qed.

(** [executemany] without a fault, row by row. *)
Lemma executemany_rows stmts t n :
  executemany stmts None t n
  = Some ((fun r => (row_run stmts r).1) <$> t,
          (n + sum_list ((fun r => (row_run stmts r).2) <$> t))%nat).
Proof.
  revert t n. induction stmts as [|[u a] rest IH]; intros t n.
  - cbn [executemany]. f_equal. f_equal.
    + symmetry. apply list_fmap_id.
    + assert (sum_list ((fun r => (row_run [] r).2) <$> t) = O) as ->; [|lia].
      induction t as [|r t IHt]; [done|]. rewrite fmap_cons. simpl. exact IHt.
  - cbn [executemany]. unfold fill_image_url, sql_update.
    rewrite IH. f_equal. f_equal.
    + rewrite <- list_fmap_compose. apply list_fmap_ext. intros i r _. simpl.
      destruct (fill_where a r); [|done]. by destruct (row_run rest _).
    + rewrite <- Nat.add_assoc. f_equal.
      induction t as [|r t IHt]; [done|].
      rewrite filter_cons, !fmap_cons. cbn [sum_list sum_list_with].
      rewrite <- IHt. unfold id. cbn [row_run].
      destruct (fill_where a r) eqn:E.
      * rewrite decide_True by done.
        destruct (row_run rest (set_image_url u r)). simpl. lia.
      * rewrite decide_False by congruence. simpl. lia.
Qed.

Lemma sum_indicator (P : row -> bool) t :
  sum_list ((fun r => if P r then 1%nat else O) <$> t)
  = length (filter (fun r => P r = true) t).
Proof.
  induction t as [|r t IH]; [done|].
  rewrite filter_cons, fmap_cons. cbn [sum_list sum_list_with].
  rewrite IH. unfold id. destruct (P r) eqn:E.
  - rewrite decide_True by done. simpl. lia.
  - rewrite decide_False by congruence. simpl. lia.
Qed.

(** The order of the statements of a batch does not matter: with
    distinct addresses, a row meets at most one statement that selects
    it. *)
Lemma row_run_order stmts stmts' r :
  NoDup stmts.*2 -> stmts ≡ₚ stmts' -> row_run stmts r = row_run stmts' r.
Proof.
  intros Hnd Hperm.
  assert (NoDup stmts'.*2) as Hnd' by (by rewrite <- Hperm).
  destruct (image_url_blank r) eqn:Hb;
    [|by rewrite !row_run_nonblank].
  destruct (decide (token_address r ∈ stmts.*2)) as [Hin|Hout].
  - apply list_elem_of_fmap in Hin as ([u a] & Ha & Hin). simpl in Ha. subst a.
    rewrite (row_run_present stmts r u), (row_run_present stmts' r u);
      try done.
    by rewrite <- Hperm.
  - rewrite (row_run_absent stmts), (row_run_absent stmts'); try done.
    by rewrite <- Hperm.
Qed.

Lemma executemany_order stmts stmts' t n :
  NoDup stmts.*2 -> stmts ≡ₚ stmts' ->
  executemany stmts None t n = executemany stmts' None t n.
Proof.
  intros Hnd Hperm. rewrite !executemany_rows.
  assert (forall r, row_run stmts r = row_run stmts' r) as Hrow
    by (intros r; by apply row_run_order).
  f_equal. f_equal.
  - apply list_fmap_ext. intros i r _. by rewrite Hrow.
  - f_equal. f_equal. apply list_fmap_ext. intros i r _. by rewrite Hrow.
Qed.

(** A batch that meets no fault fills every selected row and counts
    them. *)
Lemma executemany_batch m t :
  executemany (update_data_of m) None t O
  = Some (fill_row m <$> t, length (filter (fun r => selected m r = true) t)).
Proof.
  rewrite executemany_rows. f_equal. f_equal.
  - apply list_fmap_ext. intros i r _. by rewrite row_run_batch.
  - simpl. rewrite <- sum_indicator. f_equal.
    apply list_fmap_ext. intros i r _. by rewrite row_run_batch.
Qed.

(** A fault index beyond the batch never fires. *)
Lemma executemany_late_fault stmts k t n :
  (length stmts <= k)%nat ->
  executemany stmts (Some k) t n = executemany stmts None t n.
Proof.
  revert k t n. induction stmts as [|[u a] rest IH]; intros k t n Hk; [done|].
  simpl in *. destruct k as [|k]; [lia|]. simpl.
  destruct (fill_image_url u a t). apply IH. lia.
Qed.

(** A fault inside the batch aborts [executemany]. *)
Lemma executemany_fault stmts k t n :
  (k < length stmts)%nat -> executemany stmts (Some k) t n = None.
Proof.
  revert k t n. induction stmts as [|[u a] rest IH]; intros k t n Hk.
  - simpl in Hk. lia.
  - simpl in *. destruct k as [|k]; [done|]. simpl.
    destruct (fill_image_url u a t). apply IH. lia.
Qed.

Lemma fill_row_empty r : fill_row ∅ r = r.
Proof. unfold fill_row. rewrite lookup_empty. by destruct (image_url_blank r). Qed.

Lemma map_size_zero_empty m : Nat.eqb (size m) 0 = true -> m = ∅.
Proof. intros H. apply Nat.eqb_eq in H. by apply map_size_empty_iff. Qed.

(** The call without a fault, in closed form. *)
Lemma update_database_batch_no_fault m w :
  next_db_fault w = NoFault ->
  db (update_database_batch m w).2 = fill_row m <$> db w /\
  ((update_database_batch m w).1 =
     if Nat.eqb (size m) 0 then O
     else length (filter (fun r => selected m r = true) (db w))).
Proof.
  intros Hf. unfold update_database_batch.
  destruct (Nat.eqb (size m) 0) eqn:Hsz.
  - apply map_size_zero_empty in Hsz as ->. simpl. split; [|done].
    symmetry. rewrite <- (list_fmap_id (db w)) at 2.
    apply list_fmap_ext. intros i r _. apply fill_row_empty.
  - rewrite Hf. unfold try_update. simpl.
    by rewrite executemany_batch.
Qed.

(** Whatever the fault, the table afterwards is the old one or the
    filled one. *)
Lemma update_database_batch_db m w :
  db (update_database_batch m w).2 = db w \/
  db (update_database_batch m w).2 = fill_row m <$> db w.
Proof.
  unfold update_database_batch.
  destruct (Nat.eqb (size m) 0); [by left|].
  destruct (next_db_fault w) as [| | |k|]; simpl; try by left.
  - right. unfold try_update. by rewrite executemany_batch.
  - unfold try_update.
    destruct (decide (k < length (update_data_of m))%nat) as [Hk|Hk].
    + rewrite executemany_fault by done. by left.
    + rewrite executemany_late_fault by lia. rewrite executemany_batch. by right.
  - unfold try_update. rewrite executemany_batch. by left.
Qed.

Lemma fill_row_nonblank m r :
  image_url_blank r = false -> fill_row m r = r.
Proof. unfold fill_row. by intros ->. Qed.

Lemma fill_row_idem m r : fill_row m (fill_row m r) = fill_row m r.
Proof.
  destruct (image_url_blank r) eqn:Hb; [|by rewrite !(fill_row_nonblank m r Hb)].
  unfold fill_row. rewrite Hb.
  destruct (m !! token_address r) as [u|] eqn:Hm.
  - simpl. rewrite Hm. by destruct (image_url_blank (set_image_url u r)).
  - by rewrite Hb, Hm.
Qed.

(** A failure of the connection or of the cursor changes nothing and
    yields 0. *)
Lemma update_database_batch_early_fault m w :
  next_db_fault w = ConnectFails \/ next_db_fault w = CursorFails ->
  db (update_database_batch m w).2 = db w /\
  (update_database_batch m w).1 = O.
Proof.
  unfold update_database_batch.
  destruct (Nat.eqb (size m) 0); [done|].
  by intros [-> | ->].
Qed.

(** A failure of the commit also changes nothing, but [updated_count]
    has been assigned by then: the call returns the row count of the
    batch it rolled back. *)
Lemma update_database_batch_commit_fault m w :
  next_db_fault w = CommitFails ->
  size m <> O ->
  db (update_database_batch m w).2 = db w /\
  (update_database_batch m w).1
  = length (filter (fun r => selected m r = true) (db w)).
Proof.
  intros Hf Hsz. unfold update_database_batch.
  apply Nat.eqb_neq in Hsz. rewrite Hsz, Hf.
  unfold try_update. by rewrite executemany_batch.
Qed.

End BatchUpsert.

(** ** The batch upsert writer: the properties *)

(** C1. For every batch [m] and every row of the table whose address
    is a key of [m] with value [u]: after [update_database_batch] the
    row's [image_url] is what it was when that was neither NULL nor
    empty, whatever [u] is and whether or not the write went through;
    and it is [u] when it was NULL or empty and the batch met no
    fault. *)
Theorem upsert_respects_existing_value
    (m : gmap string string) (w : world) (i : nat) (r : row) (u : string) :
  db w !! i = Some r ->
  m !! token_address r = Some u ->
  exists r', db (update_database_batch m w).2 !! i = Some r' /\
    token_address r' = token_address r /\
    (image_url_blank r = false -> image_url r' = image_url r) /\
    (image_url_blank r = true -> next_db_fault w = NoFault ->
     image_url r' = Some u).
Proof.
  intros Hi Hm.
  destruct (update_database_batch_db m w) as [E|E].
  - exists r. rewrite E. split; [done|]. split; [done|]. split; [done|].
    intros Hb Hf.
    destruct (update_database_batch_no_fault m w Hf) as [E' _].
    rewrite E in E'. apply (f_equal (fun t => t !! i)) in E'.
    rewrite list_lookup_fmap, Hi in E'. simpl in E'.
    injection E' as E'. rewrite E' at 1.
    unfold fill_row. by rewrite Hb, Hm.
  - exists (fill_row m r). rewrite E, list_lookup_fmap, Hi.
    split; [done|]. unfold fill_row.
    destruct (image_url_blank r) eqn:Hb; rewrite ?Hm; simpl.
    + split; [done|]. split; [done|]. done.
    + split; [done|]. split; [done|]. done.
Qed.

Lemma upsert_respects_existing_value_witness :
  exists r',
    db (update_database_batch example_batch
          (example_world [row_kept; row_null] [])).2 !! 1%nat = Some r' /\
    token_address r' = token_address row_null /\
    (image_url_blank row_null = false -> image_url r' = image_url row_null) /\
    (image_url_blank row_null = true ->
     next_db_fault (example_world [row_kept; row_null] []) = NoFault ->
     image_url r' = Some "https://static.starsarena.com/b.png").
Proof.
  apply (upsert_respects_existing_value example_batch
           (example_world [row_kept; row_null] []) 1 row_null
           "https://static.starsarena.com/b.png"); reflexivity.
Defined.

(** C2. When a batch has been applied, applying the same batch again
    leaves the table as the first application left it, whatever fault
    the second call meets. *)
Theorem upsert_idempotent (m : gmap string string) (w : world) :
  next_db_fault w = NoFault ->
  db (update_database_batch m (update_database_batch m w).2).2
  = db (update_database_batch m w).2.
Proof.
  intros Hf.
  destruct (update_database_batch_no_fault m w Hf) as [E _].
  destruct (update_database_batch_db m (update_database_batch m w).2)
    as [E2|E2]; [done|].
  rewrite E2, E, <- list_fmap_compose.
  apply list_fmap_ext. intros i r _. apply fill_row_idem.
Qed.

Lemma upsert_idempotent_witness :
  db (update_database_batch example_batch
        (update_database_batch example_batch
           (example_world [row_kept; row_null] [])).2).2
  = db (update_database_batch example_batch
          (example_world [row_kept; row_null] [])).2.
Proof.
  apply (upsert_idempotent example_batch
           (example_world [row_kept; row_null] [])).
  reflexivity.
Defined.

(** A statement of the batch that raises: the call leaves the
    committed table as it was before the call, whatever the earlier
    statements had done to the working copy, and returns 0. So does a
    failure of the connection or of the cursor (lemma
    [update_database_batch_early_fault]). *)
Theorem upsert_partial_failure_rolls_back
    (m : gmap string string) (w : world) (k : nat) :
  next_db_fault w = StatementFails k ->
  (k < size m)%nat ->
  db (update_database_batch m w).2 = db w /\
  (update_database_batch m w).1 = O.
Proof.
  intros Hf Hk. unfold update_database_batch.
  destruct (Nat.eqb (size m) 0) eqn:Hsz.
  { apply Nat.eqb_eq in Hsz. lia. }
  rewrite Hf. unfold try_update.
  rewrite executemany_fault by (by rewrite update_data_of_length).
  done.
Qed.

(** The last of three statements raises on a table with two blank rows
    of the batch: the two statements before it have filled at least one
    of them in the working copy, and the rollback undoes it. *)
Lemma upsert_partial_failure_rolls_back_witness :
  (exists t' n,
     executemany (take 2 (update_data_of example_batch)) None
       [row_kept; row_null; row_unfilled] O = Some (t', n) /\
     t' <> [row_kept; row_null; row_unfilled] /\ (1 <= n)%nat) /\
  db (update_database_batch example_batch
        (example_world [row_kept; row_null; row_unfilled]
           [StatementFails 2])).2
  = [row_kept; row_null; row_unfilled] /\
  (update_database_batch example_batch
     (example_world [row_kept; row_null; row_unfilled]
        [StatementFails 2])).1 = O.
Proof.
  split.
  - eexists _, _. split; [vm_compute; reflexivity|].
    split; [discriminate|]. apply Nat.leb_le. reflexivity.
  - apply (upsert_partial_failure_rolls_back example_batch
             (example_world [row_kept; row_null; row_unfilled]
                [StatementFails 2]) 2).
    + reflexivity.
    + apply Nat.ltb_lt. vm_compute. reflexivity.
Defined.

(** C4, on the code. The batch of three mappings runs to its end on a
    table in which it fills one row, and then [commit] raises. The
    handler rolls back, so the table is as before the call; but
    [updated_count] was assigned from [cursor.rowcount] before the
    commit, and the call returns 1, not 0, after logging the failure. *)
Lemma upsert_commit_failure_reports_rows :
  db (update_database_batch example_batch
        (example_world [row_kept; row_null] [CommitFails])).2
  = [row_kept; row_null] /\
  (update_database_batch example_batch
     (example_world [row_kept; row_null] [CommitFails])).1 = 1%nat /\
  trace (update_database_batch example_batch
           (example_world [row_kept; row_null] [CommitFails])).2
  = [EvLog Error MsgDbUpdateFailed].
Proof. vm_compute. repeat split. Qed.

Lemma fill_row_changes (m : gmap string string) (r : row) :
  (forall a u, m !! a = Some u -> u <> "") ->
  fill_row m r <> r <-> selected m r = true.
Proof.
  intros Hne. unfold fill_row, selected.
  destruct (image_url_blank r) eqn:Hb; simpl; [|split; [done|discriminate]].
  destruct (m !! token_address r) as [u|] eqn:Hm.
  - rewrite bool_decide_eq_true_2 by eauto. split; [done|]. intros _ E.
    apply (f_equal image_url) in E. simpl in E.
    unfold image_url_blank in Hb. rewrite <- E in Hb.
    apply String.eqb_eq in Hb. by apply (Hne _ _ Hm).
  - rewrite bool_decide_eq_false_2 by (intros [? ?]; congruence).
    split; [done|discriminate].
Qed.

Lemma rows_changed_fill (m : gmap string string) (t : table) :
  (forall a u, m !! a = Some u -> u <> "") ->
  rows_changed t (fill_row m <$> t)
  = length (filter (fun r => selected m r = true) t).
Proof.
  intros Hne. unfold rows_changed.
  induction t as [|r t IH]; [done|].
  rewrite fmap_cons. cbn [zip zip_with]. rewrite !filter_cons. cbn [fst snd].
  destruct (decide (selected m r = true)) as [Hs|Hs].
  - rewrite decide_True; [simpl; by rewrite IH|].
    intros E. by apply (fill_row_changes m r Hne).
  - rewrite decide_False; [done|].
    intros E. apply Hs. apply (fill_row_changes m r Hne). congruence.
Qed.

(** C7. A non-empty batch that meets no fault returns the number of
    rows its statements selected, all statements together; when the
    values of the batch are non-empty strings (as the mapping extractor
    produces them) this is the number of rows whose content the call
    changed. The count can be smaller than the number of entries of the
    batch: an address may have no row, or its row may hold a value. *)
Theorem upsert_returns_rows_changed :
  (forall (m : gmap string string) (w : world),
     size m <> O ->
     next_db_fault w = NoFault ->
     (update_database_batch m w).1
       = length (filter (fun r => selected m r = true) (db w)) /\
     ((forall a u, m !! a = Some u -> u <> "") ->
      (update_database_batch m w).1
        = rows_changed (db w) (db (update_database_batch m w).2))) /\
  (exists (m : gmap string string) (w : world),
     size m <> O /\ next_db_fault w = NoFault /\
     ((update_database_batch m w).1 < size m)%nat).
Proof.
  split.
  - intros m w Hsz Hf.
    destruct (update_database_batch_no_fault m w Hf) as [E1 E2].
    apply Nat.eqb_neq in Hsz. rewrite Hsz in E2.
    split; [done|]. intros Hne. rewrite E1, E2.
    symmetry. by apply rows_changed_fill.
  - exists example_batch, (example_world [row_kept; row_null] []).
    vm_compute. repeat split; [discriminate | lia].
Qed.

Lemma upsert_returns_rows_changed_witness :
  (update_database_batch example_batch
     (example_world [row_kept; row_null] [])).1
  = length (filter (fun r => selected example_batch r = true)
              [row_kept; row_null]) /\
  (update_database_batch example_batch
     (example_world [row_kept; row_null] [])).1 = 1%nat.
Proof.
  destruct (proj1 upsert_returns_rows_changed example_batch
              (example_world [row_kept; row_null] [])) as [H1 H2].
  - vm_compute. discriminate.
  - reflexivity.
  - split; [exact H1|]. vm_compute. reflexivity.
Defined.

(** ** The mapping extractor: the properties *)

Section MappingExtractor.

Lemma set_total_mappings_same w :
  set_total_mappings (total_mappings w) w = w.
Proof. by destruct w. Qed.

Lemma set_total_mappings_twice n k w :
  set_total_mappings n (set_total_mappings k w) = set_total_mappings n w.
Proof. done. Qed.

(** One turn of the loop: the entry is inserted and the counter goes up
    by one, or nothing happens. *)
Lemma extract_token_entry (m : gmap string string) (w : world) (tok : token) :
  extract_token (m, w) tok
  = match entry_of tok with
    | Some (addr, url) =>
        (<[addr := url]> m, set_total_mappings (S (total_mappings w)) w)
    | None => (m, w)
    end.
Proof.
  destruct tok as [d|]; [|reflexivity]. unfold extract_token, entry_of.
  destruct (dict_get d "token_contract_address") as [|addr]; [reflexivity|].
  simpl. destruct (String.eqb addr ""); simpl.
  { by destruct (dict_get d "photo_url"). }
  destruct (dict_get d "photo_url") as [|url]; [reflexivity|].
  simpl. destruct (String.eqb url ""); [reflexivity|]. simpl.
  by destruct (contains allowed_host url).
Qed.

Lemma extract_fold (tokens : list token) (m : gmap string string) (w : world) :
  fold_left extract_token tokens (m, w)
  = (fold_left (fun m tok =>
                  match entry_of tok with
                  | Some (addr, url) => <[addr := url]> m
                  | None => m
                  end) tokens m,
     set_total_mappings
       (total_mappings w + length (filter (fun tok => accepted tok = true) tokens))
       w).
Proof.
  revert m w. induction tokens as [|tok tokens IH]; intros m w.
  - simpl. by rewrite Nat.add_0_r, set_total_mappings_same.
  - cbn [fold_left]. rewrite extract_token_entry, filter_cons.
    destruct (entry_of tok) as [[addr url]|] eqn:E.
    + rewrite IH, decide_True by (unfold accepted; by rewrite E).
      rewrite set_total_mappings_twice. simpl. do 2 f_equal. lia.
    + rewrite IH, decide_False by (unfold accepted; by rewrite E). done.
Qed.

End MappingExtractor.

(** C8, as the code has it. The mapping [extract_image_mappings]
    returns is a function of the tokens alone, and the call touches
    nothing of the world (no request, no file, no table, no log entry)
    except the counter [total_mappings], which it raises by the number
    of tokens it kept. *)
Theorem extract_image_mappings_effect (tokens : list token) (w : world) :
  extract_image_mappings tokens w
  = (mapping_of tokens,
     set_total_mappings
       (total_mappings w + length (filter (fun tok => accepted tok = true) tokens))
       w).
Proof. apply extract_fold. Qed.

(** C8, as the specification states it, fails: the call changes the
    state of the extractor. One kept token moves [total_mappings] from
    0 to 1. *)
Lemma extract_image_mappings_changes_state :
  (extract_image_mappings
     [token_of "0xA" "https://static.starsarena.com/a.png"]
     (example_world [] [])).2 <> example_world [] [] /\
  total_mappings (example_world [] []) = O /\
  total_mappings
    (extract_image_mappings
       [token_of "0xA" "https://static.starsarena.com/a.png"]
       (example_world [] [])).2 = 1%nat.
Proof.
  split; [|split; reflexivity].
  intros E. apply (f_equal total_mappings) in E. vm_compute in E. discriminate.
Qed.

(** ** The paginated fetcher: the properties *)

Section Fetcher.

Lemma requests_emit e tr :
  requests (e :: tr) = ((if is_get e then 1 else 0) + requests tr)%nat.
Proof.
  unfold requests. rewrite filter_cons. destruct (is_get e).
  - by rewrite decide_True.
  - by rewrite decide_False.
Qed.

Lemma time_sleep_requests seconds w r w' :
  time_sleep seconds w = (r, w') -> requests (trace w') = requests (trace w).
Proof.
  unfold time_sleep. destruct (sleep_error seconds w); intros [= <- <-]; [done|].
  simpl. by rewrite requests_emit.
Qed.

(** The failure of a sleep depends on the monotonic clock alone. *)
Lemma sleep_error_uptime seconds w w' :
  uptime w' = uptime w -> sleep_error seconds w' = sleep_error seconds w.
Proof. unfold sleep_error, monotonic_ns. by intros ->. Qed.

Lemma monotonic_ns_range w : 0 <= monotonic_ns w <= 2 ^ 62.
Proof. unfold monotonic_ns. lia. Qed.

(** Short sleeps never fail. *)
Lemma sleep_error_small seconds w :
  0 <= seconds <= 4 -> sleep_error seconds w = None.
Proof.
  intros Hs. unfold sleep_error, int64_max.
  pose proof (monotonic_ns_range w) as Hm.
  change (2 ^ 62) with 4611686018427387904 in Hm.
  change (10 ^ 9) with 1000000000.
  destruct (seconds <? 0) eqn:E1; [apply Z.ltb_lt in E1; lia|].
  destruct (9223372036854775807 <? seconds * 1000000000) eqn:E2;
    [apply Z.ltb_lt in E2; lia|].
  destruct (9223372036854775807 <=? monotonic_ns w + seconds * 1000000000) eqn:E3;
    [apply Z.leb_le in E3; lia|].
  done.
Qed.

(** The backoff delays of the attempts that back off are 2 and 4
    seconds. *)
Lemma backoff_sleeps (attempt : nat) w :
  (attempt <? max_retries - 1)%nat = true ->
  sleep_error (base_delay * backoff_factor ^ Z.of_nat attempt) w = None.
Proof.
  intros Ha. apply Nat.ltb_lt in Ha. unfold max_retries in Ha.
  apply sleep_error_small.
  destruct attempt as [|[|attempt]]; [| |lia]; vm_compute; split; discriminate.
Qed.

Ltac count_requests :=
  cbn [snd trace log emit set_net] in *;
  rewrite ?requests_emit in *;
  cbn [is_get Nat.add] in *.

(** Every turn of the attempt loop issues one request, whatever the
    response is. *)
Lemma fetch_attempts_requests remaining attempt limit offset w :
  (requests (trace (fetch_attempts remaining attempt limit offset w).2)
   <= requests (trace w) + remaining)%nat.
Proof.
  revert attempt w. induction remaining as [|remaining IH]; intros attempt w.
  - simpl. lia.
  - cbn [fetch_attempts]. unfold session_get.
    destruct (match net (log Info (MsgRequest (attempt + 1) offset limit) w)
              with [] => HttpFailed | r :: _ => r end) as [h|data| |].
    + destruct h as [|n|]; [| |count_requests; lia];
        (match goal with
         | |- context [time_sleep ?d ?x] =>
             destruct (time_sleep d x) as [[?|?] w2] eqn:Hs
         end;
         apply time_sleep_requests in Hs; count_requests;
         [etransitivity; [apply IH|]; lia | lia]).
    + count_requests. lia.
    + count_requests. lia.
    + destruct (attempt <? max_retries - 1)%nat; [|count_requests; lia].
      match goal with
      | |- context [time_sleep ?d ?x] =>
          destruct (time_sleep d x) as [[?|?] w2] eqn:Hs
      end;
      apply time_sleep_requests in Hs; count_requests;
      [etransitivity; [apply IH|]; lia | lia].
Qed.


End Fetcher.




(** ** The extraction loop: the properties *)

Section Loop.

(** A sleep adds its event to the trace, or fails and changes
    nothing. *)
Lemma time_sleep_world seconds w r w' :
  time_sleep seconds w = (r, w') ->
  (r = Ok tt /\ w' = emit (EvSleep seconds) w) \/ (exists e, r = Raise e /\ w' = w).
Proof.
  unfold time_sleep. destruct (sleep_error seconds w) as [e|];
    intros [= <- <-]; eauto.
Qed.

(** The fetcher touches the network script and the trace only. *)
Lemma fetch_attempts_frame remaining attempt limit offset w :
  let w' := (fetch_attempts remaining attempt limit offset w).2 in
  fs_faults w' = fs_faults w /\ files w' = files w.
Proof.
  revert attempt w. induction remaining as [|remaining IH]; intros attempt w.
  - done.
  - cbn [fetch_attempts]. unfold session_get.
    destruct (match net (log Info (MsgRequest (attempt + 1) offset limit) w)
              with [] => HttpFailed | r :: _ => r end) as [h|data| |];
      [| done | done |].
    + destruct h as [|n|]; [| |done].
      * match goal with
        | |- context [time_sleep ?d ?x] =>
            destruct (time_sleep d x) as [[[]|e] w2] eqn:Hs;
            apply time_sleep_world in Hs as [[_ ->]|(e' & _ & ->)]
        end; try done.
        all: match goal with |- context [fetch_attempts _ _ _ _ ?x] =>
          destruct (IH (S attempt) x) as [-> ->] end; done.
      * match goal with
        | |- context [time_sleep ?d ?x] =>
            destruct (time_sleep d x) as [[[]|e] w2] eqn:Hs;
            apply time_sleep_world in Hs as [[_ ->]|(e' & _ & ->)]
        end; try done.
        all: match goal with |- context [fetch_attempts _ _ _ _ ?x] =>
          destruct (IH (S attempt) x) as [-> ->] end; done.
    + destruct (attempt <? max_retries - 1)%nat; [|done].
      match goal with
      | |- context [time_sleep ?d ?x] =>
          destruct (time_sleep d x) as [[[]|e] w2] eqn:Hs;
          apply time_sleep_world in Hs as [[_ ->]|(e' & _ & ->)]
      end; try done.
      all: match goal with |- context [fetch_attempts _ _ _ _ ?x] =>
        destruct (IH (S attempt) x) as [-> ->] end; done.
Qed.

(** After a page: an exception, or the offset advances by one page and
    the loop goes on exactly when the new offset is within the limit. *)
Lemma after_page_cases l w :
  (exists e w', after_page l w = (Raise e, w')) \/
  (exists w',
     after_page l w
     = (Ok (if 100000 <? offset l + batch_size then Break else Continue,
            mkLocals (all_mappings l) (offset l + batch_size)
                     (consecutive_empty l) (batch_mappings l) (fetched l)),
        w')).
Proof.
  unfold after_page.
  destruct (if offset l mod 1000 =? 0
            then save_progress (all_mappings l) (offset l) w
            else (Ok (), w)) as [[[]|e] w1]; [|left; eauto].
  destruct (if Nat.eqb (size (all_mappings l) mod 500) 0
               && (0 <? size (all_mappings l))%nat
            then match batch_mappings l with
                 | Some b => (Ok (), (update_database_batch b w1).2)
                 | None => (Raise NameError, w1)
                 end
            else (Ok (), w1)) as [[[]|e] w2]; [|left; eauto].
  right. cbn [offset]. destruct (100000 <? offset l + batch_size); eauto.
Qed.

Lemma has_three_empty_cons page older :
  has_three_empty (page :: older)
  = (3 <=? trailing_empty (page :: older))%nat || has_three_empty older.
Proof. done. Qed.

Lemma loop_body_cases o0 l w :
  loop_inv o0 l ->
  (exists e w', loop_body l w = (Raise e, w')) \/
  (exists l' w', loop_body l w = (Ok (Break, l'), w') /\
     (stopped_by_empty_pages o0 l' \/ stopped_by_safety_limit o0 l')) \/
  (exists l' w', loop_body l w = (Ok (Continue, l'), w') /\
     loop_inv o0 l' /\ offset l' = offset l + batch_size /\
     offset l' <= 100000).
Proof.
  intros (Hoff & Hce & Hlt & Hthree). unfold loop_body.
  destruct (fetch_tokens_with_retry batch_size (offset l) _)
    as [[tokens|e] w1]; [|left; eauto].
  destruct tokens as [|tok tokens].
  - cbv zeta. cbn [consecutive_empty].
    destruct (max_consecutive_empty <=? S (consecutive_empty l))%nat eqn:Hmax.
    + right. left. do 2 eexists. split; [reflexivity|]. left.
      apply Nat.leb_le in Hmax. unfold max_consecutive_empty in Hmax.
      unfold stopped_by_empty_pages. cbn [consecutive_empty fetched offset tail length trailing_empty page_empty].
      rewrite <- Hce. repeat split; [lia | lia | done | lia].
    + apply Nat.leb_gt in Hmax. unfold max_consecutive_empty in Hmax.
      match goal with |- context [after_page ?l1 ?w1] =>
        destruct (after_page_cases l1 w1) as [(e & w' & ->)|(w' & ->)] end;
        [left; eauto|].
      cbn [consecutive_empty fetched offset all_mappings batch_mappings].
      assert (has_three_empty ([] :: fetched l) = false) as Hthree'.
      { rewrite has_three_empty_cons, Hthree. cbn [trailing_empty page_empty].
        rewrite <- Hce. rewrite orb_false_r. apply Nat.leb_gt. lia. }
      destruct (100000 <? offset l + batch_size) eqn:Hcap.
      * right. left. do 2 eexists. split; [reflexivity|]. right.
        apply Z.ltb_lt in Hcap. unfold stopped_by_safety_limit.
        cbn [consecutive_empty fetched offset length].
        repeat split; [done | done | lia].
      * right. right. do 2 eexists. split; [reflexivity|].
        apply Z.ltb_ge in Hcap. unfold loop_inv.
        cbn [consecutive_empty fetched offset length trailing_empty page_empty].
        rewrite <- Hce. repeat split; [lia | lia | done | lia].
  - destruct (extract_image_mappings (tok :: tokens) _) as [batch w2].
    match goal with |- context [after_page ?l1 ?w1] =>
      destruct (after_page_cases l1 w1) as [(e & w' & ->)|(w' & ->)] end;
      [left; eauto|].
    cbn [consecutive_empty fetched offset all_mappings batch_mappings].
    assert (has_three_empty ((tok :: tokens) :: fetched l) = false) as Hthree'.
    { rewrite has_three_empty_cons, Hthree. done. }
    destruct (100000 <? offset l + batch_size) eqn:Hcap.
    * right. left. do 2 eexists. split; [reflexivity|]. right.
      apply Z.ltb_lt in Hcap. unfold stopped_by_safety_limit.
      cbn [consecutive_empty fetched offset length].
      repeat split; [done | done | lia].
    * right. right. do 2 eexists. split; [reflexivity|].
      apply Z.ltb_ge in Hcap. unfold loop_inv.
      cbn [consecutive_empty fetched offset length trailing_empty page_empty].
      repeat split; [lia | lia | done | lia].
Qed.

(** The loop ends within [n] turns when the pages up to the safety
    limit are fewer than [n]. *)
Lemma while_loop_ends o0 n :
  forall l w,
    loop_inv o0 l ->
    Z.max 0 ((100000 - offset l) / batch_size) < Z.of_nat n ->
    exists r w',
      (forall fuel, (n <= fuel)%nat -> while_loop fuel l w = Some (r, w')) /\
      loop_exit o0 r.
Proof.
  induction n as [|n IH]; intros l w Hinv Hn; [lia|].
  assert ((consecutive_empty l <? max_consecutive_empty)%nat = true) as Hhead.
  { destruct Hinv as (_ & _ & Hlt & _). by apply Nat.ltb_lt. }
  destruct (loop_body_cases o0 l w Hinv)
    as [(e & w' & Hb)|[(l' & w' & Hb & Hex)|(l' & w' & Hb & Hinv' & Hoff & Hle)]].
  - exists (Raise e), w'. split; [|done].
    intros [|fuel] Hf; [lia|]. cbn [while_loop]. by rewrite Hhead, Hb.
  - exists (Ok l'), w'. split; [|done].
    intros [|fuel] Hf; [lia|]. cbn [while_loop]. by rewrite Hhead, Hb.
  - destruct (IH l' w' Hinv') as (r & w'' & Hrun & Hex).
    { unfold batch_size in *.
      assert ((100000 - offset l') / 50 = (100000 - offset l) / 50 - 1) as E.
      { rewrite Hoff. replace (100000 - (offset l + 50)) with ((100000 - offset l) + (-1) * 50) by lia.
        rewrite Z.div_add by lia. lia. }
      assert (0 <= (100000 - offset l') / 50) by (apply Z.div_pos; lia).
      lia. }
    exists r, w''. split; [|done].
    intros [|fuel] Hf; [lia|]. cbn [while_loop]. rewrite Hhead, Hb.
    apply Hrun. lia.
Qed.


Lemma save_progress_fault m offset w :
  next_fs_fault w <> NoFsFault ->
  exists w', save_progress m offset w = (Raise OSError, w') /\
    trace w' = trace w /\
    (forall name cp, files w' !! name = Some (Complete cp) ->
       files w !! name = Some (Complete cp)) /\
    (next_fs_fault w = OpenFails -> files w' = files w) /\
    (next_fs_fault w = DumpFails ->
     exists name, files w' = <[name := Incomplete]> (files w)).
Proof.
  intros Hf. unfold save_progress, read_clock. cbn [fst snd].
  unfold next_fs_fault in *. cbn [fs_faults set_clock].
  destruct (fs_faults w) as [|[| |] rest]; [done|done| |].
  - eexists. split; [reflexivity|]. cbn [files trace set_fs_faults set_clock].
    split; [done|]. split; [done|]. split; [done|]. discriminate.
  - eexists. split; [reflexivity|].
    cbn [files trace set_fs_faults set_clock set_files].
    split; [done|]. split; [|split; [discriminate|eauto]].
    intros name cp.
    match goal with |- <[?k := _]> _ !! _ = _ -> _ =>
      destruct (decide (k = name)) as [->|Hne] end.
    + by rewrite lookup_insert_eq.
    + by rewrite lookup_insert_ne.
Qed.

Lemma after_page_fault l w :
  offset l mod 1000 = 0 ->
  next_fs_fault w <> NoFsFault ->
  exists w', after_page l w = (Raise OSError, w') /\
    trace w' = trace w /\
    (forall name cp, files w' !! name = Some (Complete cp) ->
       files w !! name = Some (Complete cp)) /\
    (next_fs_fault w = OpenFails -> files w' = files w) /\
    (next_fs_fault w = DumpFails ->
     exists name, files w' = <[name := Incomplete]> (files w)).
Proof.
  intros Hmod Hf. unfold after_page. rewrite Hmod. cbn [Z.eqb].
  destruct (save_progress_fault (all_mappings l) (offset l) w Hf)
    as (w' & -> & H).
  by exists w'.
Qed.

End Loop.

(** C3, as the code has it. Entered at a non-negative offset with no
    page fetched yet, the loop always ends, within 2001 turns: with an
    exception; or by the [break] on the third consecutive empty or
    failed page, the first run of three, with the offset not advanced
    after that page (initial offset plus page size times the pages
    fetched less one); or by the [break] of the safety limit, the
    offset above 100000 and advanced after every page (initial offset
    plus page size times the pages fetched), no run of three empty
    pages having occurred. *)
Theorem extraction_loop_terminates (l0 : locals) (w : world) :
  0 <= offset l0 ->
  consecutive_empty l0 = O ->
  fetched l0 = [] ->
  exists r w',
    (forall fuel, (2001 <= fuel)%nat -> while_loop fuel l0 w = Some (r, w')) /\
    loop_exit (offset l0) r.
Proof.
  intros Hoff Hce Hfetched.
  apply while_loop_ends.
  - unfold loop_inv. rewrite Hfetched, Hce. simpl. repeat split; lia.
  - unfold batch_size.
    assert ((100000 - offset l0) / 50 <= 100000 / 50)
      by (apply Z.div_le_mono; lia).
    change (100000 / 50) with 2000 in *. lia.
Qed.

Lemma extraction_loop_terminates_witness :
  exists r w',
    (forall fuel, (2001 <= fuel)%nat ->
       while_loop fuel initial_locals (example_world [] []) = Some (r, w')) /\
    loop_exit (offset initial_locals) r.
Proof.
  apply (extraction_loop_terminates initial_locals (example_world [] [])).
  - vm_compute. discriminate.
  - reflexivity.
  - reflexivity.
Defined.

(** The whole of [bulk_extract_all_tokens] ends in the same way. *)
Lemma bulk_extract_all_tokens_terminates (w : world) :
  exists r w',
    (forall fuel, (2001 <= fuel)%nat ->
       bulk_extract_all_tokens fuel w = Some (r, w')) /\
    loop_exit 0 r.
Proof.
  unfold bulk_extract_all_tokens.
  destruct (estimate_total_available w) as [estimated_total w1].
  destruct (while_loop_ends 0 2001 initial_locals
              (log Info (MsgEstimatedTotal estimated_total) w1))
    as (r & w' & Hrun & Hex).
  - unfold loop_inv. simpl. repeat split; lia.
  - vm_compute. done.
  - by exists r, w'.
Qed.

(** C3, as the specification states it, fails. When every request
    fails the loop fetches three pages, all empty, and stops at offset
    100: the offset of the third page, not 0 + 50 * 3. *)
Lemma extraction_loop_final_offset_counterexample :
  exists l w',
    bulk_extract_all_tokens 2001 (example_world [] []) = Some (Ok l, w') /\
    length (fetched l) = 3%nat /\
    consecutive_empty l = 3%nat /\
    offset l = 100 /\
    offset l <> 0 + batch_size * Z.of_nat (length (fetched l)).
Proof.
  eexists. eexists. split; [vm_compute; reflexivity|].
  vm_compute. repeat split. discriminate.
Qed.

(** C6, as the code has it. When a turn of the loop reaches a
    checkpoint (the offset is a multiple of 1000) and the write of the
    progress file fails, the exception leaves [save_progress] and the
    loop: the run ends with it in that very turn, and nothing is logged
    at error level for it. The turn writes no complete checkpoint: when
    [open] failed the files are as they were, when [json.dump] failed
    the file it was writing is left incomplete. *)
Theorem checkpoint_failure_aborts_run
    (fuel : nat) (l : locals) (w w1 : world) (tokens : list token) :
  (consecutive_empty l < 3)%nat ->
  offset l mod 1000 = 0 ->
  next_fs_fault w <> NoFsFault ->
  fetch_tokens_with_retry batch_size (offset l)
    (log Info (MsgProgress (offset l) (size (all_mappings l))) w)
  = (Ok tokens, w1) ->
  tokens <> [] \/ (consecutive_empty l < 2)%nat ->
  exists w',
    while_loop (S fuel) l w = Some (Raise OSError, w') /\
    filter (fun e => is_error_log e = true) (trace w')
    = filter (fun e => is_error_log e = true) (trace w1) /\
    (forall name cp, files w' !! name = Some (Complete cp) ->
       files w !! name = Some (Complete cp)) /\
    (next_fs_fault w = OpenFails -> files w' = files w) /\
    (next_fs_fault w = DumpFails ->
     exists name, files w' = <[name := Incomplete]> (files w)).
Proof.
  intros Hlt Hmod Hfs Hfetch Hpage.
  assert (fs_faults w1 = fs_faults w /\ files w1 = files w) as [Hfs1 Hfiles1].
  { pose proof (fetch_attempts_frame max_retries 0 batch_size (offset l)
                  (log Info (MsgProgress (offset l) (size (all_mappings l))) w))
      as H.
    unfold fetch_tokens_with_retry in Hfetch. rewrite Hfetch in H. exact H. }
  cbn [while_loop]. apply Nat.ltb_lt in Hlt as Hhead.
  unfold max_consecutive_empty. rewrite Hhead.
  unfold loop_body. rewrite Hfetch.
  assert (forall (l1 : locals) (w2 : world),
            offset l1 = offset l ->
            fs_faults w2 = fs_faults w1 -> files w2 = files w1 ->
            filter (fun e => is_error_log e = true) (trace w2)
            = filter (fun e => is_error_log e = true) (trace w1) ->
            exists w',
              match after_page l1 w2 with
              | (Raise e, w) => Some (Raise e, w)
              | (Ok (Continue, l), w) => while_loop fuel l w
              | (Ok (Break, l), w) => Some (Ok l, w)
              end = Some (Raise OSError, w') /\
              filter (fun e => is_error_log e = true) (trace w')
              = filter (fun e => is_error_log e = true) (trace w1) /\
              (forall name cp, files w' !! name = Some (Complete cp) ->
                 files w !! name = Some (Complete cp)) /\
              (next_fs_fault w = OpenFails -> files w' = files w) /\
              (next_fs_fault w = DumpFails ->
               exists name, files w' = <[name := Incomplete]> (files w)))
    as Hturn.
  { intros l1 w2 Hoff Hf2 Hfiles2 Htr.
    assert (next_fs_fault w2 = next_fs_fault w) as Hnext
      by (unfold next_fs_fault; by rewrite Hf2, Hfs1).
    destruct (after_page_fault l1 w2) as (w' & -> & Htrace & Hc & Ho & Hd).
    - by rewrite Hoff.
    - by rewrite Hnext.
    - exists w'. rewrite Hnext, Hfiles2, Hfiles1 in *.
      split; [done|]. split; [by rewrite Htrace|]. done. }
  destruct tokens as [|tok tokens].
  - destruct Hpage as [Hne|Hce]; [done|].
    cbv zeta. cbn [consecutive_empty].
    destruct (max_consecutive_empty <=? S (consecutive_empty l))%nat eqn:Hmax.
    { apply Nat.leb_le in Hmax. unfold max_consecutive_empty in Hmax. lia. }
    apply Hturn; [done|done|done|].
    cbn [trace log emit]. by rewrite filter_cons, decide_False.
  - unfold extract_image_mappings. rewrite extract_fold.
    apply Hturn; [done| | |];
      match goal with |- context [if ?c then _ else _] => destruct c end;
      cbn [fs_faults files trace log emit set_total_mappings set_total_fetched];
      try done; by rewrite filter_cons, decide_False.
Qed.

Lemma checkpoint_failure_aborts_run_witness :
  exists w',
    while_loop 1 initial_locals checkpoint_world = Some (Raise OSError, w') /\
    filter (fun e => is_error_log e = true) (trace w')
    = filter (fun e => is_error_log e = true)
        (trace (fetch_tokens_with_retry batch_size 0
                  (log Info (MsgProgress 0 0) checkpoint_world)).2) /\
    (forall name cp, files w' !! name = Some (Complete cp) ->
       files checkpoint_world !! name = Some (Complete cp)) /\
    (next_fs_fault checkpoint_world = OpenFails ->
     files w' = files checkpoint_world) /\
    (next_fs_fault checkpoint_world = DumpFails ->
     exists name, files w' = <[name := Incomplete]> (files checkpoint_world)).
Proof.
  apply (checkpoint_failure_aborts_run 0 initial_locals checkpoint_world
           (fetch_tokens_with_retry batch_size 0
              (log Info (MsgProgress 0 0) checkpoint_world)).2 []).
  - vm_compute. lia.
  - reflexivity.
  - discriminate.
  - reflexivity.
  - right. vm_compute. lia.
Defined.

(** C6, as the specification states it, fails. The first page has a
    token and a second page is waiting, but the write of the first
    checkpoint fails: the run ends with the exception, the second page
    is never requested, and no error was logged. *)
Lemma checkpoint_failure_counterexample :
  exists w',
    bulk_extract_all_tokens 2001 checkpoint_world = Some (Raise OSError, w') /\
    net w' = [HttpJsonList [token_of "0xB" "https://static.starsarena.com/b.png"]] /\
    filter (fun e => is_error_log e = true) (trace w') = [].
Proof.
  eexists. split; [vm_compute; reflexivity|].
  vm_compute. repeat split.
Qed.

(** ** The image scraper: the properties *)

Section ImageScraper.

Import Scraper.


(** A row as [update_token_image_status] leaves it. *)
Lemma update_token_image_status_lookup address status url path s i r :
  sdb s !! i = Some r ->
  sdb (update_token_image_status address status url path s) !! i
  = Some (if String.eqb (token_address r) address
          then set_scrape (now s) status url path r else r).
Proof.
  intros Hi. unfold update_token_image_status, sql_update. cbn [sdb fst].
  by rewrite list_lookup_fmap, Hi.
Qed.


(** What a download that is not a success does to the table: it
    records its status, with no URL and no file path. *)
Lemma download_image_failure address resp s :
  recorded_status resp <> "success" ->
  sdb (download_image address resp s).2
  = sdb (update_token_image_status address (recorded_status resp) None None s) /\
  images_dir (download_image address resp s).2 = images_dir s.
Proof.
  intros Hst. destruct resp as [status content| | |[p|]]; simpl in *; try done.
  by destruct (status =? 200).
Qed.

(** After a failed download the cleanup selects no row of the address:
    the rows of the address have no file path. *)
Lemma cleanup_skips_failed_download address resp s :
  recorded_status resp <> "success" ->
  address
    ∉ token_address
        <$> filter (fun r => failed_with_path r = true)
                   (sdb (download_image address resp s).2).
Proof.
  intros Hst Hin. destruct (download_image_failure address resp s Hst) as [Hrows _].
  apply list_elem_of_fmap in Hin as (r' & Haddr & Hin).
  apply list_elem_of_filter in Hin as [Hsel Hin].
  apply list_elem_of_lookup in Hin as [i Hi].
  rewrite Hrows in Hi.
  unfold update_token_image_status, sql_update in Hi. cbn [sdb fst] in Hi.
  rewrite list_lookup_fmap in Hi.
  destruct (sdb s !! i) as [r|] eqn:Hr; [|done]. simpl in Hi.
  injection Hi as <-.
  destruct (String.eqb (token_address r) address) eqn:E.
  - unfold failed_with_path in Hsel. simpl in Hsel.
    by rewrite andb_false_r in Hsel.
  - apply String.eqb_neq in E. congruence.
Qed.


End ImageScraper.

(** C10. For every address, every row of that address and every
    response that is not a success (a status other than 200, a timeout,
    an error), [download_image] leaves the row with the status it
    records and with NULL in [arena_image_url] and
    [arena_image_file_path], whatever an earlier scrape had stored
    there. *)
Theorem failed_download_clears_url_and_path
    (s : Scraper.state) (address : string) (resp : Scraper.response)
    (i : nat) (r : row) :
  Scraper.sdb s !! i = Some r ->
  token_address r = address ->
  Scraper.recorded_status resp <> "success" ->
  exists r',
    Scraper.sdb (Scraper.download_image address resp s).2 !! i = Some r' /\
    arena_image_scrape_status r' = Some (Scraper.recorded_status resp) /\
    arena_image_url r' = None /\
    arena_image_file_path r' = None.
Proof.
  intros Hi Haddr Hst.
  rewrite (proj1 (download_image_failure address resp s Hst)).
  rewrite (update_token_image_status_lookup _ _ _ _ _ _ _ Hi).
  rewrite Haddr, String.eqb_refl. eexists. split; [reflexivity|]. done.
Qed.

Lemma failed_download_clears_url_and_path_witness :
  exists r',
    Scraper.sdb (Scraper.download_image "0xA" (Scraper.RespStatus 500 "")
                   scraped_state).2 !! O = Some r' /\
    arena_image_scrape_status r'
      = Some (Scraper.recorded_status (Scraper.RespStatus 500 "")) /\
    arena_image_url r' = None /\
    arena_image_file_path r' = None.
Proof.
  apply (failed_download_clears_url_and_path scraped_state "0xA"
           (Scraper.RespStatus 500 "") 0 scraped_row).
  - reflexivity.
  - reflexivity.
  - vm_compute. discriminate.
Defined.

(** C9, on the code. The address 0xA has a file from an earlier
    download. Its next download gets HTTP 500: the row records
    'failed', with a NULL file path. The cleanup selects rows that are
    not a success and have a file path, so it skips the row, removes
    nothing, and the file is still on disk. *)
Lemma failed_download_file_survives_cleanup :
  arena_image_scrape_status
    <$> Scraper.sdb (Scraper.download_image "0xA" (Scraper.RespStatus 500 "")
                       scraped_state).2 !! O
  = Some (Some "failed") /\
  (Scraper.cleanup_failed_images
     (Scraper.download_image "0xA" (Scraper.RespStatus 500 "")
        scraped_state).2).1 = O /\
  Scraper.disk
    (Scraper.cleanup_failed_images
       (Scraper.download_image "0xA" (Scraper.RespStatus 500 "")
          scraped_state).2).2 !! "token_images/0xA.png"
  = Some "PNG".
Proof. vm_compute. repeat split. Qed.

(** * Further properties of the two scripts *)

(** ** The mapping extractor *)

Section MappingProperties.

Lemma string_app_nil_l (s : string) : "" +:+ s = s.
Proof. reflexivity. Qed.

Lemma string_app_cons (c : Ascii.ascii) (s1 s2 : string) :
  String c s1 +:+ s2 = String c (s1 +:+ s2).
Proof. reflexivity. Qed.

Lemma prefix_app (n s : string) :
  String.prefix n s = true <-> exists q, s = n +:+ q.
Proof.
  revert s. induction n as [|c n IH]; intros s.
  - split; [intros _; by exists s|]. intros _. by destruct s.
  - destruct s as [|c' s]; simpl.
    + split; [done|]. intros [q Hq]. rewrite string_app_cons in Hq. done.
    + destruct (Ascii.ascii_dec c c') as [->|Hne].
      * rewrite IH. split; intros [q Hq]; exists q.
        -- rewrite string_app_cons. by f_equal.
        -- rewrite string_app_cons in Hq. by injection Hq.
      * split; [done|]. intros [q Hq]. rewrite string_app_cons in Hq.
        injection Hq as Hc _. congruence.
Qed.

(** [contains] is the substring test of Python's [in]. *)
Lemma contains_substring (n s : string) :
  contains n s = true <-> exists p q, s = p +:+ (n +:+ q).
Proof.
  induction s as [|c s IH].
  - cbn [contains]. rewrite orb_false_r, prefix_app. split.
    + intros [q Hq]. by exists "", q.
    + intros ([|c p] & q & Hq); [by exists q|].
      rewrite string_app_cons in Hq. done.
  - cbn [contains]. rewrite orb_true_iff, prefix_app, IH. split.
    + intros [[q Hq]|(p & q & Hq)].
      * by exists "", q.
      * exists (String c p), q. rewrite string_app_cons. by f_equal.
    + intros ([|c' p] & q & Hq).
      * left. by exists q.
      * right. rewrite string_app_cons in Hq. injection Hq as _ Hq.
        by exists p, q.
Qed.

(** What a kept token looks like. *)
Lemma entry_of_Some (tok : token) (addr url : string) :
  entry_of tok = Some (addr, url) ->
  exists d, tok = TokenDict d /\
    d !! "token_contract_address" = Some (PyStr addr) /\
    d !! "photo_url" = Some (PyStr url) /\
    addr <> "" /\ url <> "" /\ contains allowed_host url = true.
Proof.
  destruct tok as [d|]; [|done]. unfold entry_of, dict_get.
  destruct (d !! "token_contract_address") as [[|a]|] eqn:Ha; try done.
  destruct (d !! "photo_url") as [[|u]|] eqn:Hu; try done. simpl.
  destruct (String.eqb a "") eqn:Ea; [done|].
  destruct (String.eqb u "") eqn:Eu; [done|]. simpl.
  destruct (contains allowed_host u) eqn:Ec; [|done].
  intros [= <- <-]. exists d. apply String.eqb_neq in Ea, Eu. done.
Qed.

Lemma add_entries_lookup (tokens : list token) (m : gmap string string)
    (addr url : string) :
  fold_left add_entry tokens m !! addr = Some url ->
  m !! addr = Some url \/
  exists tok, tok ∈ tokens /\ entry_of tok = Some (addr, url).
Proof.
  revert m. induction tokens as [|tok tokens IH]; intros m H; [by left|].
  cbn [fold_left] in H. apply IH in H as [H|(tok' & Hin & He)].
  - unfold add_entry in H. destruct (entry_of tok) as [[a u]|] eqn:E; [|by left].
    destruct (decide (a = addr)) as [->|Hne].
    + rewrite lookup_insert_eq in H. injection H as ->.
      right. exists tok. split; [apply list_elem_of_here|done].
    + rewrite lookup_insert_ne in H by done. by left.
  - right. exists tok'. split; [by apply list_elem_of_further|done].
Qed.

Lemma add_entries_skip (tokens : list token) (m : gmap string string)
    (addr : string) :
  (forall tok u, tok ∈ tokens -> entry_of tok <> Some (addr, u)) ->
  fold_left add_entry tokens m !! addr = m !! addr.
Proof.
  revert m. induction tokens as [|tok tokens IH]; intros m H; [done|].
  cbn [fold_left]. rewrite IH.
  - unfold add_entry. destruct (entry_of tok) as [[a u]|] eqn:E; [|done].
    apply lookup_insert_ne. intros ->.
    by apply (H tok u); [apply list_elem_of_here|].
  - intros tok' u Hin. apply H. by apply list_elem_of_further.
Qed.

Lemma mapping_of_fold (tokens : list token) :
  mapping_of tokens = fold_left add_entry tokens ∅.
Proof. reflexivity. Qed.

Lemma extract_image_mappings_fst (tokens : list token) (w : world) :
  (extract_image_mappings tokens w).1 = mapping_of tokens.
Proof. unfold extract_image_mappings. by rewrite extract_fold. Qed.

End MappingProperties.

(** X1. On records whose address and photo URL are strings or null
    (the values of [pyval]): every entry of the mapping
    [extract_image_mappings] returns has a non-empty address, and a URL
    that is non-empty and has the allowed host as a substring; and it
    comes from a token of the input, a dict holding that address and
    that URL. *)
Theorem extract_image_mappings_entries_valid
    (tokens : list token) (w : world) (addr url : string) :
  (extract_image_mappings tokens w).1 !! addr = Some url ->
  addr <> "" /\ url <> "" /\
  (exists p q, url = p +:+ ("static.starsarena.com" +:+ q)) /\
  exists d, TokenDict d ∈ tokens /\
    d !! "token_contract_address" = Some (PyStr addr) /\
    d !! "photo_url" = Some (PyStr url).
Proof.
  rewrite extract_image_mappings_fst, mapping_of_fold. intros H.
  apply add_entries_lookup in H as [H|(tok & Hin & He)].
  { by rewrite lookup_empty in H. }
  apply entry_of_Some in He as (d & -> & Ha & Hu & Hna & Hnu & Hc).
  apply contains_substring in Hc. eauto 10.
Qed.

Lemma extract_image_mappings_entries_valid_witness :
  "0xA" <> "" /\ "https://static.starsarena.com/a.png" <> "" /\
  (exists p q, "https://static.starsarena.com/a.png"
               = p +:+ ("static.starsarena.com" +:+ q)) /\
  exists d,
    TokenDict d ∈ [TokenOther;
                   token_of "0xA" "https://static.starsarena.com/a.png"] /\
    d !! "token_contract_address" = Some (PyStr "0xA") /\
    d !! "photo_url" = Some (PyStr "https://static.starsarena.com/a.png").
Proof.
  apply (extract_image_mappings_entries_valid
           [TokenOther; token_of "0xA" "https://static.starsarena.com/a.png"]
           (example_world [] [])).
  reflexivity.
Defined.

(** X2. Among the tokens of one call the last kept token of an address
    decides its URL: a kept token followed by no other kept token of
    the same address is the entry of that address. *)
Theorem extract_image_mappings_last_wins
    (before after : list token) (tok : token) (w : world)
    (addr url : string) :
  entry_of tok = Some (addr, url) ->
  (forall tok' u, tok' ∈ after -> entry_of tok' <> Some (addr, u)) ->
  (extract_image_mappings (before ++ tok :: after) w).1 !! addr = Some url.
Proof.
  intros He Hafter.
  rewrite extract_image_mappings_fst, mapping_of_fold, fold_left_app.
  cbn [fold_left]. rewrite add_entries_skip by done.
  unfold add_entry at 1. rewrite He. apply lookup_insert_eq.
Qed.

Lemma extract_image_mappings_last_wins_witness :
  (extract_image_mappings
     ([token_of "0xA" "https://static.starsarena.com/old.png"]
      ++ token_of "0xA" "https://static.starsarena.com/new.png"
      :: [token_of "0xB" "https://static.starsarena.com/b.png"])
     (example_world [] [])).1 !! "0xA"
  = Some "https://static.starsarena.com/new.png".
Proof.
  apply (extract_image_mappings_last_wins
           [token_of "0xA" "https://static.starsarena.com/old.png"]
           [token_of "0xB" "https://static.starsarena.com/b.png"]).
  - reflexivity.
  - intros tok' u Hin. apply list_elem_of_singleton in Hin as ->.
    vm_compute. discriminate.
Defined.

(** ** The paginated fetcher *)

Ltac fetch_step :=
  cbn [fetch_attempts]; unfold session_get; cbn [net log emit set_net].

Section FetcherProperties.

Lemma same_outside_network_refl w : same_outside_network w w.
Proof. by repeat split. Qed.

(** The effects of the attempt loop: it consumes at most [remaining]
    entries of the network script, extends the trace, and leaves the
    rest of the world alone. *)
Lemma fetch_attempts_effects remaining attempt limit offset w :
  let w' := (fetch_attempts remaining attempt limit offset w).2 in
  same_outside_network w w' /\
  (exists k, (k <= remaining)%nat /\ net w' = drop k (net w)) /\
  (exists new, trace w' = (new ++ trace w)%list).
Proof.
  revert attempt w. induction remaining as [|remaining IH]; intros attempt w.
  - simpl. split; [apply same_outside_network_refl|].
    split; [exists O; split; [lia|by rewrite drop_0] | by exists []].
  - assert (forall w1 : world,
              same_outside_network w w1 ->
              net w1 = tail (net w) ->
              (exists new, trace w1 = (new ++ trace w)%list) ->
              let w' := (fetch_attempts remaining (S attempt) limit offset w1).2 in
              same_outside_network w w' /\
              (exists k, (k <= S remaining)%nat /\ net w' = drop k (net w)) /\
              (exists new, trace w' = (new ++ trace w)%list)) as Hrec.
    { intros w1 (H1 & H2 & H3 & H4 & H5 & H6 & H7 & H8) Hnet [new Hnew].
      destruct (IH (S attempt) w1)
        as ((G1 & G2 & G3 & G4 & G5 & G6 & G7 & G8) & (k & Hk & Hd) & (new' & Hn')).
      cbv zeta. split; [|split].
      - unfold same_outside_network. repeat split; congruence.
      - exists (S k). split; [lia|]. rewrite Hd, Hnet.
        destruct (net w); [by destruct k | done].
      - exists (new' ++ new)%list. by rewrite Hn', Hnew, app_assoc. }
    assert (forall w1 : world,
              same_outside_network w w1 ->
              net w1 = tail (net w) ->
              (exists new, trace w1 = (new ++ trace w)%list) ->
              same_outside_network w w1 /\
              (exists k, (k <= S remaining)%nat /\ net w1 = drop k (net w)) /\
              (exists new, trace w1 = (new ++ trace w)%list)) as Hstop.
    { intros w1 Hs Hnet Hnew. split; [done|]. split; [|done].
      exists 1%nat. split; [lia|]. rewrite Hnet. by destruct (net w). }
    fetch_step. unfold time_sleep.
    destruct (net w) as [|[h|data| |] rest] eqn:Hnet; cbn [tail] in *.
    + destruct (attempt <? max_retries - 1)%nat eqn:Ha.
      * rewrite (backoff_sleeps _ _ Ha).
        apply Hrec; [by unfold same_outside_network | done |].
        by eexists (_ :: _ :: _ :: _ :: _ :: []).
      * apply Hstop; [by unfold same_outside_network | done |].
        by eexists (_ :: _ :: _ :: _ :: []).
    + destruct h as [|n|].
      * destruct (sleep_error 60 _).
        -- apply Hstop; [by unfold same_outside_network | done |].
           by eexists (_ :: _ :: _ :: []).
        -- apply Hrec; [by unfold same_outside_network | done |].
           by eexists (_ :: _ :: _ :: _ :: []).
      * destruct (sleep_error n _).
        -- apply Hstop; [by unfold same_outside_network | done |].
           by eexists (_ :: _ :: _ :: []).
        -- apply Hrec; [by unfold same_outside_network | done |].
           by eexists (_ :: _ :: _ :: _ :: []).
      * apply Hstop; [by unfold same_outside_network | done |].
        by eexists (_ :: _ :: []).
    + apply Hstop; [by unfold same_outside_network | done |].
      by eexists (_ :: _ :: _ :: []).
    + apply Hstop; [by unfold same_outside_network | done |].
      by eexists (_ :: _ :: _ :: []).
    + destruct (attempt <? max_retries - 1)%nat eqn:Ha.
      * rewrite (backoff_sleeps _ _ Ha).
        apply Hrec; [by unfold same_outside_network | done |].
        by eexists (_ :: _ :: _ :: _ :: _ :: []).
      * apply Hstop; [by unfold same_outside_network | done |].
        by eexists (_ :: _ :: _ :: _ :: []).
Qed.


(** A page that is not empty was sent by the server: it is the body of
    one of the first [remaining] responses, and the responses before it
    were rate limits or failures. *)
Lemma fetch_attempts_provenance remaining attempt limit offset w data w' :
  fetch_attempts remaining attempt limit offset w = (Ok data, w') ->
  data <> [] ->
  exists k, (k < remaining)%nat /\
    net w !! k = Some (HttpJsonList data) /\
    forall j, (j < k)%nat ->
      exists o, net w !! j = Some o /\ retryable o = true.
Proof.
  revert attempt w. induction remaining as [|remaining IH]; intros attempt w.
  - simpl. by intros [= <- _].
  - assert (forall (w1 : world) o rest,
              net w = o :: rest -> retryable o = true -> net w1 = rest ->
              fetch_attempts remaining (S attempt) limit offset w1 = (Ok data, w') ->
              data <> [] ->
              exists k, (k < S remaining)%nat /\
                net w !! k = Some (HttpJsonList data) /\
                forall j, (j < k)%nat ->
                  exists o, net w !! j = Some o /\ retryable o = true) as Hrec.
    { intros w1 o rest Hnet Ho Hnet1 Hf Hne.
      destruct (IH _ _ Hf Hne) as (k & Hk & Hl & Hbefore).
      exists (S k). split; [lia|]. rewrite Hnet. split.
      - by rewrite <- Hnet1.
      - intros [|j] Hj; [by exists o|].
        rewrite <- Hnet1. apply Hbefore. lia. }
    fetch_step. unfold time_sleep.
    destruct (net w) as [|[h|d| |] rest] eqn:Hnet; cbn [tail].
    + destruct (attempt <? max_retries - 1)%nat eqn:Ha; [|by intros [= <- _]].
      rewrite (backoff_sleeps _ _ Ha).
      intros Hf Hne. destruct (IH _ _ Hf Hne) as (k & _ & Hl & _).
      cbn [net log emit set_net tail] in Hl. by rewrite lookup_nil in Hl.
    + destruct h as [|n|]; [| |done].
      * destruct (sleep_error 60 _); [done|].
        by apply Hrec with (o := HttpRateLimited RetryAbsent) (rest := rest).
      * destruct (sleep_error n _); [done|].
        by apply Hrec with (o := HttpRateLimited (RetrySeconds n)) (rest := rest).
    + intros [= <- _] _. exists O. split; [lia|]. split; [done|]. lia.
    + by intros [= <- _].
    + destruct (attempt <? max_retries - 1)%nat eqn:Ha; [|by intros [= <- _]].
      rewrite (backoff_sleeps _ _ Ha).
      by apply Hrec with (o := HttpFailed) (rest := rest).
Qed.

(** The exceptions of the attempt loop come from a 429 response: the
    ValueError of a [Retry-After] that is not an integer, or the
    exception of [time.sleep] on its seconds. *)
Lemma fetch_attempts_exception remaining attempt limit offset w e w' :
  fetch_attempts remaining attempt limit offset w = (Raise e, w') ->
  exists k h, (k < remaining)%nat /\
    net w !! k = Some (HttpRateLimited h) /\
    match retry_seconds h with
    | None => e = ValueError
    | Some n => sleep_error n w = Some e
    end.
Proof.
  revert attempt w. induction remaining as [|remaining IH]; intros attempt w.
  - done.
  - assert (forall (w1 : world) o rest,
              net w = o :: rest -> net w1 = rest -> uptime w1 = uptime w ->
              fetch_attempts remaining (S attempt) limit offset w1 = (Raise e, w') ->
              exists k h, (k < S remaining)%nat /\
                net w !! k = Some (HttpRateLimited h) /\
                match retry_seconds h with
                | None => e = ValueError
                | Some n => sleep_error n w = Some e
                end) as Hrec.
    { intros w1 o rest Hnet Hnet1 Hup Hf.
      destruct (IH _ _ Hf) as (k & h & Hk & Hl & Hh).
      exists (S k), h. split; [lia|]. rewrite Hnet.
      split; [by rewrite <- Hnet1|].
      destruct (retry_seconds h) as [n|]; [|done].
      by rewrite <- (sleep_error_uptime n w w1). }
    fetch_step. unfold time_sleep.
    destruct (net w) as [|[h|d| |] rest] eqn:Hnet; cbn [tail].
    + destruct (attempt <? max_retries - 1)%nat eqn:Ha; [|done].
      rewrite (backoff_sleeps _ _ Ha).
      intros Hf. destruct (IH _ _ Hf) as (k & h & _ & Hl & _).
      cbn [net log emit set_net tail] in Hl. by rewrite lookup_nil in Hl.
    + destruct h as [|n|].
      * rewrite (sleep_error_uptime 60 w) by reflexivity.
        destruct (sleep_error 60 w) as [e'|] eqn:Hs.
        -- intros [= <- _]. exists O, RetryAbsent. split; [lia|]. done.
        -- by apply Hrec with (o := HttpRateLimited RetryAbsent) (rest := rest).
      * rewrite (sleep_error_uptime n w) by reflexivity.
        destruct (sleep_error n w) as [e'|] eqn:Hs.
        -- intros [= <- _]. exists O, (RetrySeconds n). split; [lia|]. done.
        -- by apply Hrec with (o := HttpRateLimited (RetrySeconds n)) (rest := rest).
      * intros [= <- _]. exists O, RetryMalformed. split; [lia|]. done.
    + done.
    + done.
    + destruct (attempt <? max_retries - 1)%nat eqn:Ha; [|done].
      rewrite (backoff_sleeps _ _ Ha).
      by apply Hrec with (o := HttpFailed) (rest := rest).
Qed.

(** How a sleep fails, in terms of its duration. *)
Lemma sleep_error_Some seconds w e :
  sleep_error seconds w = Some e ->
  (seconds < 0 /\ e = ValueError) \/
  (9223372036 < seconds /\ e = OverflowError) \/
  (0 <= seconds <= 9223372036 /\
   int64_max <= monotonic_ns w + seconds * 10 ^ 9 /\ e = OSError).
Proof.
  unfold sleep_error, int64_max. change (10 ^ 9) with 1000000000.
  destruct (seconds <? 0) eqn:E1.
  { intros [= <-]. left. by apply Z.ltb_lt in E1. }
  apply Z.ltb_ge in E1.
  destruct (9223372036854775807 <? seconds * 1000000000) eqn:E2.
  { intros [= <-]. right. left. apply Z.ltb_lt in E2. split; [lia|done]. }
  apply Z.ltb_ge in E2.
  destruct (9223372036854775807 <=? monotonic_ns w + seconds * 1000000000) eqn:E3;
    [|done].
  intros [= <-]. right. right. apply Z.leb_le in E3. split; [lia|done].
Qed.

(** A failed request before the last attempt: the fetcher sleeps the
    backoff delay of the attempt and goes on. *)
Lemma fetch_attempts_failed_step remaining attempt limit offset w :
  (attempt < max_retries - 1)%nat ->
  head (net w) = None \/ head (net w) = Some HttpFailed ->
  fetch_attempts (S remaining) attempt limit offset w
  = fetch_attempts remaining (S attempt) limit offset
      (emit (EvSleep (base_delay * backoff_factor ^ Z.of_nat attempt))
         (log Info (MsgBackingOff (base_delay * backoff_factor ^ Z.of_nat attempt))
            (log Warning (MsgRequestFailed (attempt + 1))
               (emit (EvGet limit offset)
                  (set_net (tail (net w))
                     (log Info (MsgRequest (attempt + 1) offset limit) w)))))).
Proof.
  intros Hlt Hhead. apply Nat.ltb_lt in Hlt. fetch_step. unfold time_sleep.
  destruct (net w) as [|o rest]; simpl in Hhead.
  - by rewrite Hlt, (backoff_sleeps _ _ Hlt).
  - destruct Hhead as [|[= ->]]; [done|]. by rewrite Hlt, (backoff_sleeps _ _ Hlt).
Qed.

End FetcherProperties.

(** X3. A fetch touches nothing but the network script and the trace:
    the table, the files, the counters and the other scripts are as
    before; it consumes at most [max_retries] responses, from the front
    of the script; and it only adds events to the trace. *)
Theorem fetch_tokens_with_retry_effects (limit offset : Z) (w : world) :
  same_outside_network w (fetch_tokens_with_retry limit offset w).2 /\
  (exists k, (k <= max_retries)%nat /\
     net (fetch_tokens_with_retry limit offset w).2 = drop k (net w)) /\
  (exists new,
     trace (fetch_tokens_with_retry limit offset w).2 = (new ++ trace w)%list).
Proof. apply fetch_attempts_effects. Qed.

(** X4. The fetcher invents nothing: a non-empty page it returns is
    the list sent in one of the first [max_retries] responses, and
    every response before that one was a rate limit or a failure. *)
Theorem fetch_tokens_with_retry_provenance
    (limit offset : Z) (w w' : world) (data : list token) :
  fetch_tokens_with_retry limit offset w = (Ok data, w') ->
  data <> [] ->
  exists k, (k < max_retries)%nat /\
    net w !! k = Some (HttpJsonList data) /\
    forall j, (j < k)%nat ->
      exists o, net w !! j = Some o /\ retryable o = true.
Proof. apply fetch_attempts_provenance. Qed.

Lemma fetch_tokens_with_retry_provenance_witness :
  exists k, (k < max_retries)%nat /\
    net (example_network
           [HttpFailed; HttpRateLimited RetryAbsent;
            HttpJsonList [token_of "0xA" "https://static.starsarena.com/a.png"]])
      !! k
    = Some (HttpJsonList [token_of "0xA" "https://static.starsarena.com/a.png"]) /\
    forall j, (j < k)%nat ->
      exists o,
        net (example_network
               [HttpFailed; HttpRateLimited RetryAbsent;
                HttpJsonList
                  [token_of "0xA" "https://static.starsarena.com/a.png"]])
          !! j = Some o /\
        retryable o = true.
Proof.
  apply (fetch_tokens_with_retry_provenance 50 0
           (example_network
              [HttpFailed; HttpRateLimited RetryAbsent;
               HttpJsonList
                 [token_of "0xA" "https://static.starsarena.com/a.png"]])
           (fetch_tokens_with_retry 50 0
              (example_network
                 [HttpFailed; HttpRateLimited RetryAbsent;
                  HttpJsonList
                    [token_of "0xA" "https://static.starsarena.com/a.png"]])).2
           [token_of "0xA" "https://static.starsarena.com/a.png"]).
  - vm_compute. reflexivity.
  - discriminate.
Defined.



(** X6. When the three requests of a fetch all fail (or the server
    never answers), the fetcher sleeps 2 seconds after the first
    failure and 4 after the second, does not sleep after the third,
    logs the error and returns an empty page. *)
Theorem fetch_tokens_with_retry_gives_up (limit offset : Z) (w : world) :
  Forall (fun o => o = HttpFailed) (take 3 (net w)) ->
  (fetch_tokens_with_retry limit offset w).1 = Ok [] /\
  net (fetch_tokens_with_retry limit offset w).2 = drop 3 (net w) /\
  trace (fetch_tokens_with_retry limit offset w).2
  = ([EvLog Error (MsgAllRetriesFailed offset);
      EvLog Warning (MsgRequestFailed 3);
      EvGet limit offset;
      EvLog Info (MsgRequest 3 offset limit);
      EvSleep 4;
      EvLog Info (MsgBackingOff 4);
      EvLog Warning (MsgRequestFailed 2);
      EvGet limit offset;
      EvLog Info (MsgRequest 2 offset limit);
      EvSleep 2;
      EvLog Info (MsgBackingOff 2);
      EvLog Warning (MsgRequestFailed 1);
      EvGet limit offset;
      EvLog Info (MsgRequest 1 offset limit)] ++ trace w)%list.
Proof.
  intros Hall. unfold fetch_tokens_with_retry, max_retries.
  assert (forall k, head (drop k (net w)) = None \/
                    (k < 3)%nat /\ head (drop k (net w)) = Some HttpFailed \/
                    (3 <= k)%nat) as Hk.
  { intros k. destruct (decide (k < 3)%nat) as [Hlt|]; [|right; right; lia].
    destruct (drop k (net w)) as [|o rest] eqn:Hd; [by left|].
    right. left. split; [done|]. simpl. f_equal.
    assert (net w !! k = Some o) as Hl.
    { rewrite <- (Nat.add_0_r k), <- lookup_drop, Hd. done. }
    assert (take 3 (net w) !! k = Some o) as Ht
      by (rewrite lookup_take_lt by done; exact Hl).
    by apply (proj1 (Forall_lookup _ _) Hall k o Ht). }
  rewrite fetch_attempts_failed_step;
    [|unfold max_retries; lia
     |destruct (Hk O) as [H|[[_ H]|H]]; rewrite ?drop_0 in H; [by left|by right|lia]].
  rewrite fetch_attempts_failed_step;
    [|unfold max_retries; lia
     |cbn [net log emit set_net];
      destruct (Hk 1%nat) as [H|[[_ H]|H]];
      [left|right|lia]; by destruct (net w)].
  fetch_step.
  assert (match tail (tail (net w)) with [] => HttpFailed | r :: _ => r end
          = HttpFailed) as ->.
  { destruct (Hk 2%nat) as [H|[[_ H]|H]]; [| |lia];
      destruct (net w) as [|? [|? [|? ?]]]; simpl in *; congruence. }
  cbn [Nat.ltb Nat.leb max_retries Nat.sub fst snd].
  split; [done|]. split; [|done].
  cbn [net log emit set_net]. by destruct (net w) as [|? [|? [|? ?]]].
Qed.

Lemma fetch_tokens_with_retry_gives_up_witness :
  (fetch_tokens_with_retry 50 100 (example_network [HttpFailed; HttpFailed])).1
  = Ok [] /\
  net (fetch_tokens_with_retry 50 100
         (example_network [HttpFailed; HttpFailed])).2 = [] /\
  length (trace (fetch_tokens_with_retry 50 100
                   (example_network [HttpFailed; HttpFailed])).2) = 14%nat.
Proof.
  destruct (fetch_tokens_with_retry_gives_up 50 100
              (example_network [HttpFailed; HttpFailed])) as (H1 & H2 & H3).
  - vm_compute. repeat constructor.
  - split; [exact H1|]. split; [exact H2|]. by rewrite H3.
Defined.

(** ** The whole run *)

Section RunProperties.

Lemma add_entries_union (tokens : list token) (m : gmap string string) :
  fold_left add_entry tokens m = fold_left add_entry tokens ∅ ∪ m.
Proof.
  revert m. induction tokens as [|tok tokens IH]; intros m.
  - simpl. by rewrite (left_id_L ∅ (∪)).
  - cbn [fold_left]. unfold add_entry at 2 4.
    destruct (entry_of tok) as [[a u]|]; [|apply IH].
    rewrite IH, (IH (<[a:=u]> ∅)), <- (assoc_L (∪)).
    by rewrite <- insert_union_l, (left_id_L ∅ (∪)).
Qed.

(** Extracting two pages one after the other is extracting their
    concatenation: the later page wins. *)
Lemma mapping_of_app (ts1 ts2 : list token) :
  mapping_of (ts1 ++ ts2) = mapping_of ts2 ∪ mapping_of ts1.
Proof.
  rewrite !mapping_of_fold, fold_left_app. apply add_entries_union.
Qed.

Lemma mapping_of_size (tokens : list token) :
  (size (mapping_of tokens)
   <= length (filter (fun tok => accepted tok = true) tokens))%nat.
Proof.
  rewrite mapping_of_fold.
  assert (forall m : gmap string string,
            (size (fold_left add_entry tokens m)
             <= size m + length (filter (fun tok => accepted tok = true) tokens))%nat)
    as H; [|by rewrite (H ∅), map_size_empty].
  induction tokens as [|tok tokens IH]; intros m; [simpl; lia|].
  cbn [fold_left]. rewrite filter_cons. etransitivity; [apply IH|].
  unfold add_entry, accepted. destruct (entry_of tok) as [[a u]|].
  - rewrite decide_True by done. rewrite map_size_insert.
    destruct (m !! a); simpl; lia.
  - rewrite decide_False by done. lia.
Qed.

Lemma mapping_of_values (tokens : list token) :
  values_on_host (mapping_of tokens).
Proof.
  intros a u H. rewrite mapping_of_fold in H.
  apply add_entries_lookup in H as [H|(tok & _ & He)].
  - by rewrite lookup_empty in H.
  - by apply entry_of_Some in He as (d & _ & _ & _ & _ & _ & Hc).
Qed.

Lemma row_filled_refl r : row_filled r r.
Proof. by left. Qed.

Lemma row_filled_trans r1 r2 r3 :
  row_filled r1 r2 -> row_filled r2 r3 -> row_filled r1 r3.
Proof.
  intros [->|(Hb & u & Hu & ->)] H23; [done|].
  destruct H23 as [->|(_ & u' & Hu' & ->)].
  - right. eauto.
  - right. split; [done|]. exists u'. done.
Qed.

Lemma row_filled_fill (b : gmap string string) (r : row) :
  values_on_host b -> row_filled r (fill_row b r).
Proof.
  intros Hb. unfold fill_row.
  destruct (image_url_blank r) eqn:E; [|by left].
  destruct (b !! token_address r) as [u|] eqn:Hu; [|by left].
  right. split; [done|]. exists u. split; [by apply (Hb _ _ Hu)|done].
Qed.

Lemma world_inv_refl failed w : world_inv failed w w.
Proof.
  split; [|by left].
  apply Forall_Forall2_diag, Forall_forall. intros. apply row_filled_refl.
Qed.

Lemma file_ok_weaken (P Q : Prop) f : (P -> Q) -> file_ok P f -> file_ok Q f.
Proof. destruct f; simpl; auto. Qed.

Lemma world_inv_step failed w0 w w' :
  world_inv False w0 w ->
  Forall2 row_filled (db w) (db w') ->
  (forall name f, files w' !! name = Some f ->
     files w !! name = Some f \/ file_ok failed f) ->
  world_inv failed w0 w'.
Proof.
  intros [Hdb Hfiles] Hdb' Hfiles'. split.
  - eapply Forall2_trans; [|exact Hdb|exact Hdb']. apply row_filled_trans.
  - intros name f H. destruct (Hfiles' _ _ H) as [H'|H']; [|by right].
    destruct (Hfiles _ _ H') as [H0|H0]; [by left|].
    right. by apply (file_ok_weaken False).
Qed.

Lemma world_inv_same failed w0 w w' :
  world_inv False w0 w -> db w' = db w -> files w' = files w ->
  world_inv failed w0 w'.
Proof.
  intros Hinv Ed Ef. apply (world_inv_step failed w0 w w' Hinv).
  - rewrite Ed. apply Forall_Forall2_diag, Forall_forall.
    intros. apply row_filled_refl.
  - intros name f. rewrite Ef. by left.
Qed.

(** The effects of the database call on the rest of the world. *)
Lemma update_database_batch_frame (b : gmap string string) (w : world) :
  let w' := (update_database_batch b w).2 in
  files w' = files w /\ total_fetched w' = total_fetched w /\
  total_mappings w' = total_mappings w /\ net w' = net w /\
  fs_faults w' = fs_faults w /\ clock w' = clock w.
Proof.
  unfold update_database_batch.
  destruct (Nat.eqb (size b) 0); [done|].
  destruct (next_db_fault w); try done;
    by destruct (try_update _ b (db (pop_db_fault w))) as [[t'|] n].
Qed.

Lemma update_database_batch_filled (b : gmap string string) (w : world) :
  values_on_host b ->
  Forall2 row_filled (db w) (db (update_database_batch b w).2).
Proof.
  intros Hb. destruct (update_database_batch_db b w) as [-> | ->].
  - apply Forall_Forall2_diag, Forall_forall. intros. apply row_filled_refl.
  - apply Forall2_fmap_r, Forall_Forall2_diag, Forall_forall.
    intros r _. by apply row_filled_fill.
Qed.

(** The effects of a checkpoint. *)
Lemma save_progress_effects (m : gmap string string) (o : Z) (w : world) :
  let r := (save_progress m o w).1 in
  let w' := (save_progress m o w).2 in
  db w' = db w /\ db_faults w' = db_faults w /\ net w' = net w /\
  total_fetched w' = total_fetched w /\ total_mappings w' = total_mappings w /\
  ((r = Raise OSError /\ trace w' = trace w /\
    (files w' = files w \/
     exists name, files w' = <[name := Incomplete]> (files w))) \/
   (r = Ok tt /\
    exists name timestamp,
      files w'
      = <[name := Complete (mkCheckpoint o (size m) timestamp m)]> (files w))).
Proof.
  unfold save_progress, read_clock. cbn [fst snd fs_faults set_clock].
  destruct (next_fs_fault _); cbn [fst snd]; repeat split; eauto 10.
Qed.

Lemma Forall2_row_filled_refl (t : table) : Forall2 row_filled t t.
Proof.
  apply Forall_Forall2_diag, Forall_forall. intros. apply row_filled_refl.
Qed.

(** The checkpoint of a turn, when the turn has one. *)
Lemma after_page_save (l : locals) (w : world) rs ws :
  (if offset l mod 1000 =? 0
   then save_progress (all_mappings l) (offset l) w
   else (Ok tt, w)) = (rs, ws) ->
  db ws = db w /\ total_fetched ws = total_fetched w /\
  total_mappings ws = total_mappings w /\
  (forall name f, files ws !! name = Some f ->
     files w !! name = Some f \/
     file_ok (match rs with Raise e => e = OSError | Ok _ => False end) f) /\
  match rs with Raise e => e = OSError | Ok _ => True end.
Proof.
  destruct (offset l mod 1000 =? 0) eqn:Hmod.
  - intros H. apply Z.eqb_eq in Hmod.
    pose proof (save_progress_effects (all_mappings l) (offset l) w) as Hsp.
    cbv zeta in Hsp. rewrite H in Hsp. cbn [fst snd] in Hsp.
    destruct Hsp as (Hd & _ & _ & Hf & Hm &
                     [(-> & _ & Hfiles)|(-> & name & ts & Hfiles)]).
    + split; [done|]. split; [done|]. split; [done|]. split; [|done].
      intros n f. destruct Hfiles as [->|[name ->]]; [by left|].
      destruct (decide (name = n)) as [->|Hne].
      * rewrite lookup_insert_eq. intros [= <-]. by right.
      * rewrite lookup_insert_ne by done. by left.
    + split; [done|]. split; [done|]. split; [done|]. split; [|done].
      intros n f. rewrite Hfiles.
      destruct (decide (name = n)) as [->|Hne].
      * rewrite lookup_insert_eq. intros [= <-]. right. by split.
      * rewrite lookup_insert_ne by done. by left.
  - intros [= <- <-]. repeat split; try done. by left.
Qed.

(** The database update of a turn, when the turn has one. *)
Lemma after_page_update (l : locals) (ws : world) ru wu :
  (forall b, batch_mappings l = Some b -> values_on_host b) ->
  (if Nat.eqb (size (all_mappings l) mod 500) 0
      && (0 <? size (all_mappings l))%nat
   then match batch_mappings l with
        | None => (Raise NameError, ws)
        | Some b => (Ok tt, (update_database_batch b ws).2)
        end
   else (Ok tt, ws)) = (ru, wu) ->
  files wu = files ws /\ total_fetched wu = total_fetched ws /\
  total_mappings wu = total_mappings ws /\
  Forall2 row_filled (db ws) (db wu) /\
  match ru with
  | Ok _ => True
  | Raise e =>
      e = NameError /\ batch_mappings l = None /\ all_mappings l <> ∅
  end.
Proof.
  intros Hb Hu.
  destruct (Nat.eqb (size (all_mappings l) mod 500) 0
            && (0 <? size (all_mappings l))%nat) eqn:Hc.
  - destruct (batch_mappings l) as [b|] eqn:Hbm.
    + injection Hu as <- <-.
      destruct (update_database_batch_frame b ws) as (F1 & F2 & F3 & _).
      repeat split; try done.
      apply update_database_batch_filled. by apply Hb.
    + injection Hu as <- <-. repeat split; try done.
      * apply Forall2_row_filled_refl.
      * apply andb_true_iff in Hc as [_ Hc]. apply Nat.ltb_lt in Hc.
        intros E. rewrite E, map_size_empty in Hc. lia.
  - injection Hu as <- <-. repeat split; try done.
    apply Forall2_row_filled_refl.
Qed.

(** The tail of the loop body: what it does to the world and to the
    locals, and how it can fail. *)
Lemma after_page_run (l : locals) (w : world) r w' :
  after_page l w = (r, w') ->
  (forall b, batch_mappings l = Some b -> values_on_host b) ->
  total_fetched w' = total_fetched w /\
  total_mappings w' = total_mappings w /\
  Forall2 row_filled (db w) (db w') /\
  (forall name f, files w' !! name = Some f ->
     files w !! name = Some f \/
     file_ok (match r with Raise e => e = OSError | Ok _ => False end) f) /\
  match r with
  | Ok (c, l') =>
      all_mappings l' = all_mappings l /\
      batch_mappings l' = batch_mappings l /\
      fetched l' = fetched l
  | Raise e =>
      e = OSError \/
      (e = NameError /\ batch_mappings l = None /\ all_mappings l <> ∅)
  end.
Proof.
  intros H Hb. unfold after_page in H.
  match type of H with
  | match ?u with _ => _ end = _ => destruct u as [rs ws] eqn:Hs
  end.
  apply after_page_save in Hs as (Sd & Sf & Sm & Sfiles & Srs).
  destruct rs as [[]|e].
  - match type of H with
    | match ?u with _ => _ end = _ => destruct u as [ru wu] eqn:Hu
    end.
    apply (after_page_update l ws ru wu Hb) in Hu as (Uf & Ut & Um & Ud & Uru).
    rewrite Sd in Ud.
    assert (forall name f, files wu !! name = Some f ->
              files w !! name = Some f \/ file_ok False f) as Hfiles
      by (by rewrite Uf).
    destruct ru as [[]|e].
    + cbv zeta in H. cbn [offset] in H.
      destruct (100000 <? offset l + batch_size);
        injection H as <- <-;
        cbn [total_fetched total_mappings db files log emit respectful_delay];
        rewrite Ut, Um, Sf, Sm; done.
    + injection H as <- <-. rewrite Ut, Um, Sf, Sm.
      split; [done|]. split; [done|]. split; [done|]. split; [|by right].
      intros name f Hl. destruct (Hfiles name f Hl) as [?|Hok]; [by left|].
      right. by apply (file_ok_weaken False).
  - injection H as <- <-. subst e. rewrite Sd, Sf, Sm.
    split; [done|]. split; [done|].
    split; [apply Forall2_row_filled_refl|]. split; [done|by left].
Qed.


Lemma tokens_fetched_cons (page : list token) (older : list (list token)) :
  concat (reverse (page :: older)) = (concat (reverse older) ++ page)%list.
Proof.
  rewrite reverse_cons, concat_app. simpl. by rewrite app_nil_r.
Qed.

Lemma after_page_inv (w0 : world) (l : locals) (w : world) r w' :
  run_inv w0 l w ->
  after_page l w = (r, w') ->
  match r with
  | Ok (c, l') => run_inv w0 l' w'
  | Raise e => world_inv (e = OSError) w0 w' /\ e <> NameError
  end.
Proof.
  intros (I1 & I2 & I3 & I4 & I5 & I6) H.
  apply after_page_run in H as (Hf & Hm & Hd & Hfiles & Hr).
  - destruct r as [[c l']|e].
    + assert (world_inv False w0 w') as Hw
        by (by apply (world_inv_step False w0 w w')).
      destruct Hr as (E1 & E2 & E3). unfold run_inv, tokens_fetched.
      rewrite E1, E2, E3, Hf, Hm. done.
    + split; [by apply (world_inv_step (e = OSError) w0 w w')|].
      destruct Hr as [->|(-> & Hnone & Hne)]; [done|].
      destruct (I3 Hne) as [b Hb]. congruence.
  - intros b Hb. destruct (I2 b Hb) as (page & _ & ->).
    apply mapping_of_values.
Qed.

(** A fetch never raises NameError. *)
Lemma fetch_attempts_not_NameError remaining attempt limit offset w e w' :
  fetch_attempts remaining attempt limit offset w = (Raise e, w') ->
  e <> NameError.
Proof.
  intros H. apply fetch_attempts_exception in H as (k & h & _ & _ & Hh).
  destruct (retry_seconds h) as [n|]; [|by subst].
  apply sleep_error_Some in Hh as [[_ ->]|[[_ ->]|(_ & _ & ->)]]; done.
Qed.

(** One turn of the loop keeps the invariant of the run. *)
Lemma loop_body_inv (w0 : world) (l : locals) (w : world) r w' :
  run_inv w0 l w ->
  loop_body l w = (r, w') ->
  match r with
  | Ok (c, l') => run_inv w0 l' w'
  | Raise e => world_inv (e = OSError) w0 w' /\ e <> NameError
  end.
Proof.
  intros (I1 & I2 & I3 & I4 & I5 & I6) H. unfold loop_body in H.
  unfold tokens_fetched in I1, I4, I5.
  set (wl := log Info (MsgProgress (offset l) (size (all_mappings l))) w) in H.
  pose proof (fetch_attempts_effects max_retries 0 batch_size (offset l) wl)
    as (Hsame & _ & _).
  destruct Hsame as (F1 & _ & _ & _ & F5 & F6 & F7 & _).
  unfold fetch_tokens_with_retry in H.
  destruct (fetch_attempts max_retries 0 batch_size (offset l) wl)
    as [[tokens|e] w1] eqn:Hfetch; cbn [snd] in *;
    unfold wl in F1, F5, F6, F7;
    cbn [db files total_fetched total_mappings log emit] in F1, F5, F6, F7.
  2:{ injection H as <- <-. split.
      - by apply (world_inv_same _ w0 w).
      - by apply fetch_attempts_not_NameError in Hfetch. }
  destruct tokens as [|tok tokens].
  - cbv zeta in H. cbn [consecutive_empty] in H.
    assert (run_inv w0
              (mkLocals (all_mappings l) (offset l) (S (consecutive_empty l))
                        (batch_mappings l) ([] :: fetched l))
              (log Warning (MsgEmptyResponse (S (consecutive_empty l))) w1))
      as Hinv.
    { unfold run_inv, tokens_fetched.
      cbn [all_mappings batch_mappings fetched total_fetched total_mappings log emit].
      rewrite tokens_fetched_cons, app_nil_r, F6, F7.
      split; [done|]. split.
      { intros b Hb. destruct (I2 b Hb) as (page & Hin & ->).
        exists page. split; [by apply list_elem_of_further|done]. }
      split; [done|]. split; [done|]. split; [done|].
      by apply (world_inv_same _ w0 w). }
    destruct (max_consecutive_empty <=? S (consecutive_empty l))%nat.
    + injection H as <- <-.
      destruct Hinv as (J1 & J2 & J3 & J4 & J5 & J6).
      unfold run_inv. repeat split; try done.
      * apply J6.
      * apply J6.
    + by apply (after_page_inv w0 _ _ _ _ Hinv).
  - unfold extract_image_mappings in H. rewrite extract_fold in H.
    match type of H with
    | after_page ?l1 ?w2 = _ =>
        assert (run_inv w0 l1 w2) as Hinv
    end.
    { unfold run_inv, tokens_fetched.
      cbn [all_mappings batch_mappings fetched].
      rewrite tokens_fetched_cons.
      split.
      { rewrite mapping_of_app, <- mapping_of_fold. by f_equal. }
      split.
      { intros b [= <-]. exists (tok :: tokens).
        split; [apply list_elem_of_here|by rewrite mapping_of_fold]. }
      split; [by eauto|].
      rewrite filter_app, !length_app.
      match goal with
      | |- context [if ?c then _ else _] => destruct c
      end;
        cbn [total_fetched total_mappings log emit set_total_mappings
               set_total_fetched db files];
        rewrite F6, F7, I4, I5;
        (split; [lia|]); (split; [lia|]);
        by apply (world_inv_same _ w0 w). }
    by apply (after_page_inv w0 _ _ _ _ Hinv).
Qed.

(** The loop keeps the invariant of the run, however it ends. *)
Lemma while_loop_inv (w0 : world) (fuel : nat) :
  forall (l : locals) (w : world) r w',
    run_inv w0 l w ->
    while_loop fuel l w = Some (r, w') ->
    match r with
    | Ok l' => run_inv w0 l' w'
    | Raise e => world_inv (e = OSError) w0 w' /\ e <> NameError
    end.
Proof.
  induction fuel as [|fuel IH]; intros l w r w' Hinv H; [done|].
  cbn [while_loop] in H.
  destruct (consecutive_empty l <? max_consecutive_empty)%nat.
  - destruct (loop_body l w) as [[[[] l1]|e] w1] eqn:Hb;
      pose proof (loop_body_inv w0 l w _ _ Hinv Hb) as Hstep.
    + by apply (IH l1 w1).
    + by injection H as <- <-.
    + by injection H as <- <-.
  - by injection H as <- <-.
Qed.

Lemma same_outside_network_trans w1 w2 w3 :
  same_outside_network w1 w2 -> same_outside_network w2 w3 ->
  same_outside_network w1 w3.
Proof.
  intros (A1 & A2 & A3 & A4 & A5 & A6 & A7 & A8)
         (B1 & B2 & B3 & B4 & B5 & B6 & B7 & B8).
  unfold same_outside_network. repeat split; congruence.
Qed.

(** The probes of the estimate: at most three requests each, nothing
    touched but the network script and the trace, and the offset
    returned is one of the probes, or 50000 when every probe has
    tokens. *)
Lemma estimate_offsets_effects (offsets : list Z) (w : world) :
  same_outside_network w (estimate_offsets offsets w).2 /\
  (requests (trace (estimate_offsets offsets w).2)
   <= requests (trace w) + 3 * length offsets)%nat /\
  match (estimate_offsets offsets w).1 with
  | Ok n => n ∈ offsets \/ n = 50000
  | Raise _ => True
  end.
Proof.
  revert w. induction offsets as [|o offsets IH]; intros w.
  - simpl. split; [apply same_outside_network_refl|]. split; [lia|by right].
  - cbn [estimate_offsets].
    pose proof (fetch_attempts_effects max_retries 0 1 o w) as (Hsame & _ & _).
    pose proof (fetch_attempts_requests max_retries 0 1 o w) as Hreq.
    unfold fetch_tokens_with_retry.
    destruct (fetch_attempts max_retries 0 1 o w) as [[[|t ts]|e] w1];
      cbn [fst snd] in *.
    + split; [done|]. split.
      * cbn [trace log emit]. rewrite requests_emit. simpl.
        unfold max_retries in Hreq. lia.
      * left. apply list_elem_of_here.
    + destruct (IH (respectful_delay (Some 1) w1)) as (Hs & Hr & Hn).
      split; [|split].
      * eapply same_outside_network_trans; [exact Hsame|].
        eapply same_outside_network_trans; [|exact Hs]. done.
      * etransitivity; [exact Hr|].
        cbn [trace respectful_delay emit]. rewrite requests_emit. simpl.
        unfold max_retries in Hreq. lia.
      * destruct (estimate_offsets offsets _).1; [|done].
        destruct Hn as [Hn| ->]; [left; by apply list_elem_of_further|by right].
    + split; [done|]. split; [|done]. unfold max_retries in Hreq. simpl. lia.
Qed.


Lemma estimate_total_available_effects (w : world) :
  (estimate_total_available w).1 ∈ test_offsets /\
  same_outside_network w (estimate_total_available w).2 /\
  (requests (trace (estimate_total_available w).2)
   <= requests (trace w) + 18)%nat.
Proof.
  unfold estimate_total_available.
  pose proof (estimate_offsets_effects test_offsets w) as (Hs & Hr & Hn).
  unfold test_offsets in *.
  destruct (estimate_offsets [0; 1000; 5000; 10000; 25000; 50000] w)
    as [[n|e] w1]; cbn [fst snd] in *.
  - split; [|done]. destruct Hn as [Hn| ->]; [done|].
    do 5 apply list_elem_of_further. apply list_elem_of_here.
  - split; [|split].
    + do 3 apply list_elem_of_further. apply list_elem_of_here.
    + done.
    + cbn [trace log emit]. rewrite requests_emit. simpl in *. lia.
Qed.

(** The invariant of the run holds of every outcome of
    [bulk_extract_all_tokens]. *)
Lemma bulk_extract_all_tokens_inv (fuel : nat) (w : world) r w' :
  bulk_extract_all_tokens fuel w = Some (r, w') ->
  match r with
  | Ok l => run_inv w l w'
  | Raise e => world_inv (e = OSError) w w' /\ e <> NameError
  end.
Proof.
  unfold bulk_extract_all_tokens.
  pose proof (estimate_total_available_effects w) as (_ & Hs & _).
  destruct (estimate_total_available w) as [estimated_total w1].
  cbn [snd] in Hs. destruct Hs as (F1 & _ & _ & _ & F5 & F6 & F7 & _).
  apply while_loop_inv. unfold run_inv, tokens_fetched, world_inv.
  cbn [all_mappings batch_mappings fetched initial_locals db files
         total_fetched total_mappings log emit reverse concat].
  rewrite F1, F5, F6, F7.
  split; [reflexivity|]. split; [by intros b Hb|].
  split; [by intros Hne|]. split; [simpl; lia|]. split; [simpl; lia|].
  split; [apply Forall2_row_filled_refl|]. intros name f. by left.
Qed.

(** The table of every outcome of a run. *)
Lemma bulk_extract_all_tokens_rows (fuel : nat) (w : world) r w' :
  bulk_extract_all_tokens fuel w = Some (r, w') ->
  Forall2 row_filled (db w) (db w').
Proof.
  intros H. apply bulk_extract_all_tokens_inv in H.
  destruct r as [l|e]; [apply H|apply H].
Qed.

End RunProperties.


(** X7. The estimate is always one of the six probed offsets; the
    probing makes at most 18 requests and touches nothing but the
    network script and the trace. *)
Theorem estimate_total_available_range (w : world) :
  (estimate_total_available w).1 ∈ test_offsets /\
  same_outside_network w (estimate_total_available w).2 /\
  (requests (trace (estimate_total_available w).2)
   <= requests (trace w) + 18)%nat.
Proof. apply estimate_total_available_effects. Qed.

(** X8. The mapping a run returns is the extraction of all the tokens
    it fetched, page after page in the order of the requests: for an
    address seen on several pages the last page decides. *)
Theorem bulk_extract_all_tokens_mapping
    (fuel : nat) (w w' : world) (l : locals) :
  bulk_extract_all_tokens fuel w = Some (Ok l, w') ->
  all_mappings l = mapping_of (tokens_fetched l).
Proof.
  intros H. by apply bulk_extract_all_tokens_inv in H as (I1 & _).
Qed.

Lemma bulk_extract_all_tokens_mapping_witness :
  exists l w',
    bulk_extract_all_tokens 2001 run_world = Some (Ok l, w') /\
    all_mappings l = mapping_of (tokens_fetched l).
Proof.
  eexists _, _. split; [vm_compute; reflexivity|].
  eapply (bulk_extract_all_tokens_mapping 2001 run_world).
  vm_compute. reflexivity.
Defined.

(** X9. The counters of a run that returns: [total_fetched] has grown
    by the number of tokens of the fetched pages, [total_mappings] by
    the number of tokens kept; the returned mapping has at most that
    many entries, fewer when an address was kept more than once. *)
Theorem bulk_extract_all_tokens_counters
    (fuel : nat) (w w' : world) (l : locals) :
  bulk_extract_all_tokens fuel w = Some (Ok l, w') ->
  total_fetched w' = (total_fetched w + length (tokens_fetched l))%nat /\
  total_mappings w'
  = (total_mappings w
     + length (filter (fun tok => accepted tok = true) (tokens_fetched l)))%nat /\
  (size (all_mappings l) <= total_mappings w' - total_mappings w)%nat.
Proof.
  intros H. apply bulk_extract_all_tokens_inv in H as (I1 & _ & _ & I4 & I5 & _).
  split; [done|]. split; [done|].
  rewrite I1, I5. pose proof (mapping_of_size (tokens_fetched l)). lia.
Qed.

Lemma bulk_extract_all_tokens_counters_witness :
  exists l w',
    bulk_extract_all_tokens 2001 run_world = Some (Ok l, w') /\
    total_fetched w' = 3%nat /\ total_mappings w' = 3%nat /\
    size (all_mappings l) = 2%nat /\
    (size (all_mappings l) <= total_mappings w' - total_mappings run_world)%nat.
Proof.
  eexists _, _. split; [vm_compute; reflexivity|].
  split; [vm_compute; reflexivity|]. split; [vm_compute; reflexivity|].
  split; [vm_compute; reflexivity|].
  eapply (bulk_extract_all_tokens_counters 2001 run_world).
  vm_compute. reflexivity.
Defined.

(** X10. A run never ends with a NameError: the variable
    [batch_mappings], assigned only on a non-empty page, is bound
    whenever the loop reads it, because the mapping it is read for is
    non-empty only after such a page. *)
Theorem bulk_extract_all_tokens_exceptions
    (fuel : nat) (w w' : world) (e : exn) :
  bulk_extract_all_tokens fuel w = Some (Raise e, w') ->
  e <> NameError.
Proof.
  intros H. by apply bulk_extract_all_tokens_inv in H as (_ & He).
Qed.

Lemma bulk_extract_all_tokens_exceptions_witness :
  OSError <> NameError.
Proof.
  eapply (bulk_extract_all_tokens_exceptions 2001 checkpoint_world).
  vm_compute. reflexivity.
Defined.

(** X11. However a run ends, the table has the same rows in the same
    order, and each row is as before or had a blank [image_url] that
    now holds a URL on the allowed host: the run never changes a
    non-blank [image_url], another column, or the number of rows. *)
Theorem bulk_extract_all_tokens_table
    (fuel : nat) (w w' : world) (r : result locals) :
  bulk_extract_all_tokens fuel w = Some (r, w') ->
  length (db w') = length (db w) /\
  forall i r0, db w !! i = Some r0 ->
    exists r1, db w' !! i = Some r1 /\ row_filled r0 r1.
Proof.
  intros H. apply bulk_extract_all_tokens_rows in H as Hdb.
  split; [symmetry; by eapply Forall2_length|].
  intros i r0 Hi. by eapply Forall2_lookup_l.
Qed.

Lemma bulk_extract_all_tokens_table_witness :
  exists r w',
    bulk_extract_all_tokens 2001 run_world = Some (r, w') /\
    length (db w') = length (db run_world) /\
    forall i r0, db run_world !! i = Some r0 ->
      exists r1, db w' !! i = Some r1 /\ row_filled r0 r1.
Proof.
  eexists _, _. split; [vm_compute; reflexivity|].
  eapply (bulk_extract_all_tokens_table 2001 run_world).
  vm_compute. reflexivity.
Defined.

(** X12. However a run ends, every progress file on disk is one that
    was there before with the same content; or a complete checkpoint
    the run wrote at an offset that is a multiple of 1000, whose
    [total_mappings] is the number of mappings it holds; or an
    incomplete file, which a run leaves only when it ends with the
    OSError of the write that failed. *)
Theorem bulk_extract_all_tokens_checkpoints
    (fuel : nat) (w w' : world) (r : result locals)
    (name : Z) (f : progress_file) :
  bulk_extract_all_tokens fuel w = Some (r, w') ->
  files w' !! name = Some f ->
  files w !! name = Some f \/
  match f with
  | Complete cp => checkpoint_ok cp
  | Incomplete => r = Raise OSError
  end.
Proof.
  intros H Hf. apply bulk_extract_all_tokens_inv in H.
  destruct r as [l|e].
  - destruct H as (_ & _ & _ & _ & _ & _ & Hfiles).
    destruct (Hfiles name f Hf) as [?|Hok]; [by left|].
    right. by destruct f.
  - destruct H as [[_ Hfiles] _].
    destruct (Hfiles name f Hf) as [?|Hok]; [by left|].
    right. destruct f; [done|]. simpl in Hok. by subst.
Qed.

Lemma bulk_extract_all_tokens_checkpoints_witness :
  (exists cp,
     files run_world_after !! 0 = Some (Complete cp) /\
     (files run_world !! 0 = Some (Complete cp) \/ checkpoint_ok cp)) /\
  (files checkpoint_world_after !! 0 = Some Incomplete /\
   (files checkpoint_world !! 0 = Some Incomplete \/
    checkpoint_result_value = Raise OSError)).
Proof.
  split.
  - eexists. split; [vm_compute; reflexivity|].
    eapply (bulk_extract_all_tokens_checkpoints 2001 run_world run_world_after
              run_result_value 0 (Complete _)).
    + vm_compute. reflexivity.
    + vm_compute. reflexivity.
  - split; [vm_compute; reflexivity|].
    eapply (bulk_extract_all_tokens_checkpoints 2001 checkpoint_world
              checkpoint_world_after checkpoint_result_value 0 Incomplete).
    + vm_compute. reflexivity.
    + vm_compute. reflexivity.
Defined.

(** ** The image scraper *)

Section ScraperProperties.

Import Scraper.


Lemma download_image_rows address resp s :
  exists status url path,
    sdb (download_image address resp s).2
    = (fun r => if String.eqb (token_address r) address
                then set_scrape (now s) status url path r else r) <$> sdb s.
Proof.
  destruct resp as [code content| | |[p|]]; simpl; [|eauto..].
  destruct (code =? 200); simpl; eauto.
Qed.

Lemma cleanup_rows s :
  sdb (cleanup_failed_images s).2
  = (fun r => if status_not_success r then clear_file_path r else r) <$> sdb s.
Proof.
  unfold cleanup_failed_images.
  by destruct (unlink_all (images_dir s) _ (disk s) 0).
Qed.

Lemma cleanup_disk s :
  disk (cleanup_failed_images s).2
  = (unlink_all (images_dir s)
       (token_address <$> filter (fun r => failed_with_path r = true) (sdb s))
       (disk s) 0).1 /\
  (cleanup_failed_images s).1
  = (unlink_all (images_dir s)
       (token_address <$> filter (fun r => failed_with_path r = true) (sdb s))
       (disk s) 0).2.
Proof.
  unfold cleanup_failed_images.
  by destruct (unlink_all (images_dir s) _ (disk s) 0).
Qed.

(** [unlink_all] only removes files, and counts each file it removes. *)
Lemma unlink_all_accounting dir failed_tokens (d : gmap string string) n :
  (unlink_all dir failed_tokens d n).1 ⊆ d /\
  (size d + n
   = size (unlink_all dir failed_tokens d n).1
     + (unlink_all dir failed_tokens d n).2)%nat.
Proof.
  revert d n. induction failed_tokens as [|t rest IH]; intros d n; [done|].
  cbn [unlink_all].
  destruct (d !! (path_join dir (t +:+ ".png"))) as [c|] eqn:Hl.
  - destruct (IH (delete (path_join dir (t +:+ ".png")) d) (S n))
      as [Hsub Hsize].
    split.
    + etransitivity; [exact Hsub|]. apply delete_subseteq.
    + rewrite <- Hsize. rewrite map_size_delete, Hl.
      assert (size d <> 0)%nat by (apply map_size_ne_0_lookup; eauto).
      simpl. lia.
  - apply IH.
Qed.

Lemma state_eq (s s' : state) :
  sdb s = sdb s' -> disk s = disk s' -> images_dir s = images_dir s' ->
  times s = times s' -> s = s'.
Proof. destruct s, s'. simpl. by intros -> -> -> ->. Qed.

Lemma cleanup_settings s :
  images_dir (cleanup_failed_images s).2 = images_dir s /\
  times (cleanup_failed_images s).2 = times s.
Proof.
  unfold cleanup_failed_images.
  by destruct (unlink_all (images_dir s) _ (disk s) 0).
Qed.

Lemma cleaned_row_not_selected (r : row) :
  failed_with_path (if status_not_success r then clear_file_path r else r)
  = false.
Proof.
  unfold failed_with_path. destruct (status_not_success r) eqn:E.
  - cbn [clear_file_path arena_image_file_path]. apply andb_false_r.
  - by rewrite E.
Qed.

Lemma cleaned_row_fixed (r : row) :
  (let r1 := if status_not_success r then clear_file_path r else r in
   if status_not_success r1 then clear_file_path r1 else r1)
  = (if status_not_success r then clear_file_path r else r).
Proof.
  cbv zeta. destruct (status_not_success r) eqn:E; [|by rewrite E].
  unfold status_not_success in *. cbn [clear_file_path arena_image_scrape_status].
  by rewrite E.
Qed.

Lemma filter_none (P : row -> bool) (t : table) :
  (forall r, r ∈ t -> P r = false) -> filter (fun r => P r = true) t = [].
Proof.
  induction t as [|r t IH]; intros H; [done|].
  rewrite filter_cons, decide_False.
  - apply IH. intros r' Hin. apply H. by apply list_elem_of_further.
  - rewrite (H r) by apply list_elem_of_here. done.
Qed.

End ScraperProperties.

(** X13. The scraper keeps its hands off the StarsArena data: whatever
    the response, [download_image] leaves the number and order of the
    rows, and the [token_address] and [image_url] of every row, as they
    were; so does [cleanup_failed_images]. *)
Theorem scraper_preserves_image_url
    (s : Scraper.state) (address : string) (resp : Scraper.response) :
  Forall2 (fun r r' => token_address r' = token_address r /\
                       image_url r' = image_url r)
          (Scraper.sdb s)
          (Scraper.sdb (Scraper.download_image address resp s).2) /\
  Forall2 (fun r r' => token_address r' = token_address r /\
                       image_url r' = image_url r)
          (Scraper.sdb s)
          (Scraper.sdb (Scraper.cleanup_failed_images s).2).
Proof.
  split.
  - destruct (download_image_rows address resp s) as (st & url & path & ->).
    apply Forall2_fmap_r, Forall_Forall2_diag, Forall_forall.
    intros r _. simpl. by destruct (String.eqb (token_address r) address).
  - rewrite cleanup_rows.
    apply Forall2_fmap_r, Forall_Forall2_diag, Forall_forall.
    intros r _. simpl. by destruct (Scraper.status_not_success r).
Qed.



(** The scrape times do depend on the order: each download stamps the
    reading of the clock at its own status update. *)
Lemma download_image_order_in_times :
  arena_image_scraped_at
    <$> Scraper.sdb
          (Scraper.download_image "0xB" (Scraper.RespStatus 200 "PNG-B")
             (Scraper.download_image "0xA" (Scraper.RespStatus 500 "")
                two_row_state).2).2 !! O
  = Some (Some "2025-01-08T03:00:00") /\
  arena_image_scraped_at
    <$> Scraper.sdb
          (Scraper.download_image "0xA" (Scraper.RespStatus 500 "")
             (Scraper.download_image "0xB" (Scraper.RespStatus 200 "PNG-B")
                two_row_state).2).2 !! O
  = Some (Some "2025-01-08T03:00:01").
Proof. vm_compute. repeat split. Qed.

(** After [cleanup_failed_images] no row whose status is set and is
    not 'success' has a file path, and every other row (a success, or
    never scraped) is exactly as it was. *)
Theorem cleanup_failed_images_rows (s : Scraper.state) (i : nat) (r : row) :
  Scraper.sdb s !! i = Some r ->
  exists r',
    Scraper.sdb (Scraper.cleanup_failed_images s).2 !! i = Some r' /\
    (Scraper.status_not_success r = true ->
     r' = Scraper.clear_file_path r /\ arena_image_file_path r' = None) /\
    (Scraper.status_not_success r = false -> r' = r).
Proof.
  intros Hi. rewrite cleanup_rows, list_lookup_fmap, Hi. simpl.
  eexists. split; [reflexivity|].
  by destruct (Scraper.status_not_success r).
Qed.

Lemma cleanup_failed_images_rows_witness :
  exists r',
    Scraper.sdb (Scraper.cleanup_failed_images stale_state).2 !! O = Some r' /\
    (Scraper.status_not_success stale_row = true ->
     r' = Scraper.clear_file_path stale_row /\
     arena_image_file_path r' = None) /\
    (Scraper.status_not_success stale_row = false -> r' = stale_row).
Proof.
  apply (cleanup_failed_images_rows stale_state 0 stale_row).
  reflexivity.
Defined.

(** X15. A cleanup right after a cleanup finds nothing to do: it
    removes no file and leaves the state as it is. *)
Theorem cleanup_failed_images_idempotent (s : Scraper.state) :
  Scraper.cleanup_failed_images (Scraper.cleanup_failed_images s).2
  = (O, (Scraper.cleanup_failed_images s).2).
Proof.
  set (s1 := (Scraper.cleanup_failed_images s).2).
  destruct (cleanup_disk s1) as [Hd Hn].
  assert (filter (fun r => Scraper.failed_with_path r = true) (Scraper.sdb s1)
          = []) as Hnone.
  { apply filter_none. intros r1 Hin. unfold s1 in Hin.
    rewrite cleanup_rows in Hin.
    apply list_elem_of_fmap in Hin as (r & -> & _).
    apply cleaned_row_not_selected. }
  rewrite Hnone in Hd, Hn. cbn [fmap list_fmap Scraper.unlink_all fst snd] in Hd, Hn.
  destruct (Scraper.cleanup_failed_images s1) as [n s2] eqn:E.
  cbn [fst snd] in *. subst n. f_equal.
  pose proof (cleanup_rows s1) as Hrows. pose proof (cleanup_settings s1) as [Hdir Hnow].
  rewrite E in Hrows, Hdir, Hnow. cbn [snd] in *.
  apply state_eq; try done.
  rewrite Hrows. unfold s1. rewrite cleanup_rows, <- list_fmap_compose.
  apply list_fmap_ext. intros i r _. apply cleaned_row_fixed.
Qed.

(** X16. [cleanup_failed_images] never creates or changes a file: the
    files after it are files from before, with their content, and the
    number it reports is exactly the number of files that are gone. *)
Theorem cleanup_failed_images_accounting (s : Scraper.state) :
  Scraper.disk (Scraper.cleanup_failed_images s).2 ⊆ Scraper.disk s /\
  size (Scraper.disk s)
  = (size (Scraper.disk (Scraper.cleanup_failed_images s).2)
     + (Scraper.cleanup_failed_images s).1)%nat.
Proof.
  destruct (cleanup_disk s) as [-> ->].
  destruct (unlink_all_accounting (Scraper.images_dir s)
              (token_address
                 <$> filter (fun r => Scraper.failed_with_path r = true)
                            (Scraper.sdb s))
              (Scraper.disk s) 0) as [Hsub Hsize].
  split; [done|lia].
Qed.



(** Without that condition the image can be lost: a failed row with a
    file path whose address "./0xA" names the file of 0xA makes the
    cleanup remove the image that the download of 0xA has just
    written, while the row of 0xA records a success with its path. *)
Lemma cleanup_removes_aliased_image :
  Scraper.file_path_of alias_state "./0xA"
  = Scraper.file_path_of alias_state "0xA" /\
  Scraper.disk
    (Scraper.cleanup_failed_images
       (Scraper.download_image "0xA" (Scraper.RespStatus 200 "NEW")
          alias_state).2).2
    !! Scraper.file_path_of alias_state "0xA" = None /\
  arena_image_file_path
    <$> Scraper.sdb
          (Scraper.cleanup_failed_images
             (Scraper.download_image "0xA" (Scraper.RespStatus 200 "NEW")
                alias_state).2).2 !! 1%nat
  = Some (Some "token_images/0xA.png").
Proof. vm_compute. repeat split. Qed.

(** ** Selecting the tokens to scrape *)

Section Selection.

Import Scraper.

Lemma get_tokens_to_scrape_unlimited force skip week_ago s address :
  address ∈ get_tokens_to_scrape None force skip week_ago s <->
  exists r, r ∈ sdb s /\ token_address r = address /\
            scrape_where force skip week_ago r = Some true.
Proof.
  unfold get_tokens_to_scrape. rewrite list_elem_of_fmap. split.
  - intros (r & -> & Hin). apply list_elem_of_filter in Hin as [Hw Hin]. eauto.
  - intros (r & Hin & <- & Hw). exists r. split; [done|].
    by apply list_elem_of_filter.
Qed.

Lemma sql_or_true_l (b : option bool) : sql_or (Some true) b = Some true.
Proof. by destruct b as [[]|]. Qed.

Lemma sql_or_true_r (a : option bool) : sql_or a (Some true) = Some true.
Proof. by destruct a as [[]|]. Qed.

Lemma unscraped_selected s r skip week_ago :
  r ∈ sdb s ->
  arena_image_scraped_at r = None \/
  arena_image_scrape_status r = Some "failed" ->
  token_address r ∈ get_tokens_to_scrape None false skip week_ago s.
Proof.
  intros Hin Hr. apply get_tokens_to_scrape_unlimited.
  exists r. split; [done|]. split; [done|].
  unfold scrape_where.
  destruct Hr as [Hr|Hr]; rewrite Hr.
  - change (sql_is_null None) with (Some true). by rewrite !sql_or_true_l.
  - change (sql_eq_text (Some "failed") "failed") with (Some true).
    by rewrite sql_or_true_r, !sql_or_true_l.
Qed.

End Selection.

(** X18. In the default query the StarsArena filter guards only the
    last alternative: a row that was never scraped, or whose last
    scrape is recorded as 'failed', is selected whatever
    [skip_starsarena] is and whatever its [image_url] holds. *)
Theorem get_tokens_to_scrape_selects_unscraped
    (s : Scraper.state) (r : row) (skip_starsarena : bool) (week_ago : string) :
  r ∈ Scraper.sdb s ->
  arena_image_scraped_at r = None \/
  arena_image_scrape_status r = Some "failed" ->
  token_address r
    ∈ Scraper.get_tokens_to_scrape None false skip_starsarena week_ago s.
Proof. apply unscraped_selected. Qed.

Lemma get_tokens_to_scrape_selects_unscraped_witness :
  token_address starsarena_row
    ∈ Scraper.get_tokens_to_scrape None false true "2025-01-01 03:00:00"
        (Scraper.mkState [starsarena_row] ∅ "token_images"
                         ["2025-01-08T03:00:00"]).
Proof.
  apply (get_tokens_to_scrape_selects_unscraped
           (Scraper.mkState [starsarena_row] ∅ "token_images"
                            ["2025-01-08T03:00:00"])
           starsarena_row true "2025-01-01 03:00:00").
  - apply list_elem_of_here.
  - left. reflexivity.
Defined.





(** ** The batches of the scraper *)

Section Batches.

Import Scraper.

(** The slices over [range(i, n, step)] put together are the list from
    [i] on. *)
Lemma range_from_slices (tokens : list string) (step : nat) :
  (1 <= step)%nat ->
  forall fuel i,
    (length tokens <= i + fuel)%nat ->
    concat ((fun j => take step (drop j tokens))
              <$> range_from fuel i (length tokens) step)
    = drop i tokens.
Proof.
  intros Hstep. induction fuel as [|fuel IH]; intros i Hfuel.
  - simpl. rewrite drop_ge; [done|lia].
  - cbn [range_from]. destruct (i <? length tokens)%nat eqn:Hi.
    + rewrite fmap_cons. cbn [concat]. rewrite IH by lia.
      rewrite <- (take_drop step (drop i tokens)) at 2.
      by rewrite drop_drop.
    + apply Nat.ltb_ge in Hi. simpl. rewrite drop_ge; [done|lia].
Qed.

Lemma range_from_length (n step : nat) :
  (1 <= step)%nat ->
  forall fuel i,
    (n <= i + fuel)%nat ->
    length (range_from fuel i n step) = ((n - i + step - 1) / step)%nat.
Proof.
  intros Hstep. induction fuel as [|fuel IH]; intros i Hfuel.
  - simpl. replace (n - i + step - 1)%nat with (step - 1)%nat by lia.
    symmetry. apply Nat.div_small. lia.
  - cbn [range_from]. destruct (i <? n)%nat eqn:Hi.
    + apply Nat.ltb_lt in Hi. cbn [length]. rewrite IH by lia.
      destruct (decide (i + step <= n)%nat) as [Hle|Hgt].
      * replace (n - i + step - 1)%nat
          with ((n - (i + step) + step - 1) + 1 * step)%nat by lia.
        rewrite Nat.div_add by lia. lia.
      * replace (n - (i + step) + step - 1)%nat with (step - 1)%nat by lia.
        rewrite (Nat.div_small (step - 1)) by lia.
        apply (Nat.div_unique _ _ _ (n - i - 1)); lia.
    + apply Nat.ltb_ge in Hi. simpl.
      replace (n - i + step - 1)%nat with (step - 1)%nat by lia.
      symmetry. apply Nat.div_small. lia.
Qed.

(** Every index of the range is below the stop, so its slice has at
    least one element. *)
Lemma range_from_bound (fuel i stop step j : nat) :
  j ∈ range_from fuel i stop step -> (j < stop)%nat.
Proof.
  revert i. induction fuel as [|fuel IH]; intros i; [by intros ?%elem_of_nil|].
  cbn [range_from]. destruct (i <? stop)%nat eqn:Hi; [|by intros ?%elem_of_nil].
  apply Nat.ltb_lt in Hi. intros [->|Hin]%elem_of_cons; [done|by eapply IH].
Qed.

End Batches.

(** X21. The batches of [scrape_all_images] cut the token list into
    consecutive pieces: put together they are the list, each token once
    and in order; every batch has between one and [batch_size] tokens;
    and their number is the [total_batches] the method logs. *)
Theorem batch_schedule_partition
    (batch_size : nat) (tokens : list string)
    (schedule : list (list string * bool)) :
  Scraper.batch_schedule batch_size tokens = Some schedule ->
  concat (fst <$> schedule) = tokens /\
  Forall (fun b => (1 <= length b.1 <= batch_size)%nat) schedule /\
  (tokens <> [] -> length schedule = Scraper.total_batches batch_size tokens).
Proof.
  unfold Scraper.batch_schedule. destruct tokens as [|t tokens].
  { intros [= <-]. done. }
  destruct (Nat.eqb batch_size 0) eqn:Hbs; [done|].
  apply Nat.eqb_neq in Hbs. intros H. apply (inj Some) in H. subst schedule.
  set (l := t :: tokens). split; [|split].
  - rewrite <- list_fmap_compose.
    exact (range_from_slices l batch_size ltac:(lia) (length l) 0 ltac:(lia)).
  - apply Forall_fmap, Forall_forall. intros j Hj. simpl.
    apply range_from_bound in Hj. rewrite length_take, length_drop. lia.
  - intros _. rewrite length_fmap, (range_from_length (length l)) by lia.
    unfold Scraper.total_batches. f_equal; lia.
Qed.

Lemma batch_schedule_partition_witness :
  concat (fst <$> [(["a"; "b"], true); (["c"; "d"], true); (["e"], false)])
  = ["a"; "b"; "c"; "d"; "e"] /\
  Forall (fun b : list string * bool => (1 <= length b.1 <= 2)%nat)
         [(["a"; "b"], true); (["c"; "d"], true); (["e"], false)] /\
  (["a"; "b"; "c"; "d"; "e"] <> [] ->
   length [(["a"; "b"], true); (["c"; "d"], true); (["e"], false)]
   = Scraper.total_batches 2 ["a"; "b"; "c"; "d"; "e"]).
Proof.
  apply (batch_schedule_partition 2 ["a"; "b"; "c"; "d"; "e"]).
  reflexivity.
Defined.

(** ** The entry point of the extractor *)

Section MainProperties.

Lemma update_database_batch_faults (b : gmap string string) (w : world) :
  db_faults w = [] -> db_faults (update_database_batch b w).2 = [].
Proof.
  intros Hnil. unfold update_database_batch.
  destruct (Nat.eqb (size b) 0); [done|].
  unfold next_db_fault, pop_db_fault. rewrite Hnil. cbn [tail].
  by destruct (try_update NoFault b _) as [[t'|] n].
Qed.

Lemma save_progress_faults (m : gmap string string) (o : Z) (w : world) :
  db_faults (save_progress m o w).2 = db_faults w.
Proof. by destruct (save_progress_effects m o w) as (_ & H & _). Qed.

Lemma after_page_faults (l : locals) (w : world) r w' :
  after_page l w = (r, w') -> db_faults w = [] -> db_faults w' = [].
Proof.
  intros H Hnil. unfold after_page in H.
  assert (exists rs ws,
            (if offset l mod 1000 =? 0
             then save_progress (all_mappings l) (offset l) w
             else (Ok (), w)) = (rs, ws) /\ db_faults ws = []) as (rs & ws & Hs & Hws).
  { destruct (offset l mod 1000 =? 0).
    - destruct (save_progress (all_mappings l) (offset l) w) as [rs ws] eqn:E.
      exists rs, ws. split; [done|].
      pose proof (save_progress_faults (all_mappings l) (offset l) w) as Hf.
      rewrite E in Hf. simpl in Hf. congruence.
    - by exists (Ok ()), w. }
  rewrite Hs in H. destruct rs as [[]|e]; [|by injection H as <- <-].
  assert (exists ru wu,
            (if Nat.eqb (size (all_mappings l) mod 500) 0
                && (0 <? size (all_mappings l))%nat
             then match batch_mappings l with
                  | None => (Raise NameError, ws)
                  | Some b => (Ok (), (update_database_batch b ws).2)
                  end
             else (Ok (), ws)) = (ru, wu) /\ db_faults wu = [])
    as (ru & wu & Hu & Hwu).
  { destruct (_ && _).
    - destruct (batch_mappings l) as [b|].
      + eexists _, _. split; [reflexivity|].
        by apply update_database_batch_faults.
      + by eexists _, _.
    - by eexists _, _. }
  rewrite Hu in H. destruct ru as [[]|e]; [|by injection H as <- <-].
  cbv zeta in H.
  match type of H with
  | (if ?c then _ else _) = _ => destruct c
  end; by injection H as <- <-.
Qed.

Lemma loop_body_faults (l : locals) (w : world) r w' :
  loop_body l w = (r, w') -> db_faults w = [] -> db_faults w' = [].
Proof.
  intros H Hnil. unfold loop_body in H.
  set (wl := log Info (MsgProgress (offset l) (size (all_mappings l))) w) in H.
  pose proof (fetch_attempts_effects max_retries 0 batch_size (offset l) wl)
    as ((_ & F2 & _) & _ & _).
  unfold fetch_tokens_with_retry in H.
  destruct (fetch_attempts max_retries 0 batch_size (offset l) wl)
    as [[tokens|e] w1]; cbn [snd] in F2;
    unfold wl in F2; cbn [db_faults log emit] in F2.
  2:{ injection H as <- <-. congruence. }
  destruct tokens as [|tok tokens].
  - cbv zeta in H.
    match type of H with
    | (if ?c then _ else _) = _ => destruct c
    end.
    + injection H as <- <-. cbn [db_faults log emit]. congruence.
    + apply after_page_faults in H; [done|].
      cbn [db_faults log emit]. congruence.
  - unfold extract_image_mappings in H. rewrite extract_fold in H.
    apply after_page_faults in H; [done|].
    match goal with
    | |- context [if ?c then _ else _] => destruct c
    end;
      cbn [db_faults log emit set_total_mappings set_total_fetched]; congruence.
Qed.

Lemma while_loop_faults (fuel : nat) :
  forall (l : locals) (w : world) r w',
    while_loop fuel l w = Some (r, w') -> db_faults w = [] -> db_faults w' = [].
Proof.
  induction fuel as [|fuel IH]; intros l w r w' H Hnil; [done|].
  cbn [while_loop] in H.
  destruct (consecutive_empty l <? max_consecutive_empty)%nat.
  - destruct (loop_body l w) as [[[[] l1]|e] w1] eqn:Hb;
      pose proof (loop_body_faults l w _ _ Hb Hnil) as Hstep.
    + by apply (IH l1 w1 r w').
    + by injection H as <- <-.
    + by injection H as <- <-.
  - by injection H as <- <-.
Qed.

Lemma bulk_extract_all_tokens_faults (fuel : nat) (w : world) r w' :
  bulk_extract_all_tokens fuel w = Some (r, w') ->
  db_faults w = [] -> db_faults w' = [].
Proof.
  unfold bulk_extract_all_tokens. intros H Hnil.
  pose proof (estimate_total_available_effects w) as (_ & Hs & _).
  destruct (estimate_total_available w) as [estimated_total w1].
  cbn [snd] in Hs. destruct Hs as (_ & F2 & _).
  apply while_loop_faults in H; [done|].
  cbn [db_faults log emit]. congruence.
Qed.

Lemma mapping_of_nonempty_values (tokens : list token) (a u : string) :
  mapping_of tokens !! a = Some u -> u <> "".
Proof.
  intros H. rewrite mapping_of_fold in H.
  apply add_entries_lookup in H as [H|(tok & _ & He)].
  - by rewrite lookup_empty in H.
  - by apply entry_of_Some in He as (d & _ & _ & _ & _ & Hu & _).
Qed.

End MainProperties.

(** X22. A completed [main] leaves no found token without an image:
    when the user confirmed, the database met no fault and [main]
    returned normally with a backup, every row whose address is a key
    of the backup has a non-empty [image_url]; the backup is the
    extraction of all the tokens fetched, and the count reported is
    that of the final update. *)
Theorem main_fills_found_rows
    (answer : string) (fuel : nat) (w w' : world)
    (final_updated : nat) (backup : gmap string string) :
  main answer fuel w = Some (Ok (Completed final_updated backup), w') ->
  db_faults w = [] ->
  backup <> ∅ /\
  values_on_host backup /\
  forall r, r ∈ db w' -> is_Some (backup !! token_address r) ->
            image_url_blank r = false.
Proof.
  unfold main. intros H Hnil.
  destruct (negb (confirmed answer)); [done|].
  destruct (bulk_extract_all_tokens fuel w) as [[[l|e] w1]|] eqn:Hbulk;
    [|done|done].
  pose proof (bulk_extract_all_tokens_faults _ _ _ _ Hbulk Hnil) as Hnil1.
  pose proof (bulk_extract_all_tokens_inv _ _ _ _ Hbulk) as (I1 & _).
  destruct (Nat.eqb (size (all_mappings l)) 0) eqn:Hsz; [done|].
  assert (next_db_fault w1 = NoFault) as Hnf
    by (unfold next_db_fault; by rewrite Hnil1).
  destruct (update_database_batch_no_fault (all_mappings l) w1 Hnf) as [Hdb _].
  destruct (update_database_batch (all_mappings l) w1) as [n w2].
  cbn [snd] in Hdb.
  destruct (next_fs_fault w2); [|done|done].
  injection H as <- <- <-.
  split.
  { intros E. rewrite E, map_size_empty in Hsz. done. }
  split.
  { rewrite I1. apply mapping_of_values. }
  intros r Hin [u Hu]. cbn [db set_fs_faults] in Hin. rewrite Hdb in Hin.
  apply list_elem_of_fmap in Hin as (r1 & -> & _).
  unfold fill_row in *.
  destruct (image_url_blank r1) eqn:Hb; [|done].
  destruct (all_mappings l !! token_address r1) as [u1|] eqn:Hu1.
  - unfold image_url_blank. simpl. apply String.eqb_neq.
    rewrite I1 in Hu1. by apply mapping_of_nonempty_values in Hu1.
  - congruence.
Qed.

Lemma main_fills_found_rows_witness :
  exists n backup w',
    main "Y" 2001 run_world = Some (Ok (Completed n backup), w') /\
    backup <> ∅ /\
    values_on_host backup /\
    forall r, r ∈ db w' -> is_Some (backup !! token_address r) ->
              image_url_blank r = false.
Proof.
  eexists _, _, _. split; [vm_compute; reflexivity|].
  eapply (main_fills_found_rows "Y" 2001 run_world).
  - vm_compute. reflexivity.
  - reflexivity.
Defined.
